(** * A recursive same-origin web crawler with a substring search index

    Shallow embedding of [main.py]: the class [WebCrawler] with its
    methods [crawl] and [search].

    - A Python [str] is a [string]; a character is a code point below 256.
    - [self.visited] (a [set]) is a [gset string]; [self.index] (a [dict],
      which iterates in insertion order) is an association list.
    - The libraries the methods call ([requests], [bs4], [urllib.parse])
      are the fields of the class [Collaborators]; each call either
      returns or raises.
    - [crawl] is recursive without a bound, so the embedding takes fuel;
      Python's own recursion limit is not modelled. *)

From stdpp Require Import gmap strings list.

Open Scope string_scope.
Open Scope list_scope.

(** ** Strings *)

(** [s.startswith(prefix)] *)
Fixpoint startswith (s prefix : string) {struct prefix} : bool :=
  match prefix, s with
  | EmptyString, _ => true
  | String _ _, EmptyString => false
  | String c prefix', String d s' =>
      if decide (c = d) then startswith s' prefix' else false
  end.

(** [sub in s] *)
Fixpoint str_in (sub s : string) {struct s} : bool :=
  startswith s sub ||
  match s with
  | EmptyString => false
  | String _ s' => str_in sub s'
  end.

(** [c.lower()] on one code point below 256: the letters [A]-[Z] and the
    Latin-1 capitals 192-222 (without the multiplication sign 215) move
    up by 32. *)
Definition lower_char (c : Ascii.ascii) : Ascii.ascii :=
  let n := Ascii.N_of_ascii c in
  if ((65 <=? n) && (n <=? 90) ||
      (192 <=? n) && (n <=? 222) && negb (n =? 215))%N
  then Ascii.ascii_of_N (n + 32)
  else c.

(** [s.lower()] *)
Fixpoint lower (s : string) : string :=
  match s with
  | EmptyString => EmptyString
  | String c s' => String (lower_char c) (lower s')
  end.

(** The truth value of a [str]: the empty string is falsy. *)
Definition truthy (s : string) : bool :=
  match s with
  | EmptyString => false
  | String _ _ => true
  end.

(** [base_url or url], where [base_url] is [None] or a [str] *)
Definition or_else (base_url : option string) (url : string) : string :=
  match base_url with
  | Some b => if truthy b then b else url
  | None => url
  end.

(** ** The dictionary [self.index] *)

Abbreviation dict := (list (string * string)).

(** [d[k] = v]: a present key keeps its place, a new key goes last. *)
Fixpoint setitem (d : dict) (k v : string) : dict :=
  match d with
  | [] => [(k, v)]
  | (k', v') :: d' =>
      if decide (k = k') then (k, v) :: d' else (k', v') :: setitem d' k v
  end.

(** [d.get(k)] *)
Fixpoint getitem (d : dict) (k : string) : option string :=
  match d with
  | [] => None
  | (k', v') :: d' => if decide (k = k') then Some v' else getitem d' k
  end.

(** [d.keys()], in iteration order *)
Definition keys (d : dict) : list string := d.*1.

(** ** Exceptions and collaborators *)

(** The two [except] clauses of [crawl] tell two kinds of exception
    apart; each carries its message. *)
Inductive exn :=
  | RequestException (msg : string)
  | Exception (msg : string).

Inductive result (A : Type) :=
  | Ok (a : A)
  | Raise (e : exn).
Arguments Ok {A} a.
Arguments Raise {A} e.

(** A [requests.Response], as far as [crawl] looks at it. *)
Record Response := {
  raise_for_status : result unit;
  text : string
}.

(** A parsed document: [soup.get_text()] and, for each tag of
    [soup.find_all('a')] in document order, its [link.get('href')]. *)
Record Soup := {
  get_text : string;
  find_all_a : list (option string)
}.

Class Collaborators := {
  requests_get : string → result Response;
  BeautifulSoup : string → result Soup;
  urljoin : string → string → result string
}.

(** ** The crawler object and what it does to the world *)

Inductive level := DEBUG | INFO | ERROR.

Inductive event :=
  | Log (lvl : level) (msg : string)      (* logging.debug / info / error *)
  | Get (url : string)                    (* requests.get(url) *)
  | Add (url : string)                    (* self.visited.add(url) *)
  | SetItem (url txt : string).           (* self.index[url] = txt *)

(** [index] and [visited] are the fields of the object; [events] is the
    record of the calls made so far, oldest first. *)
Record WebCrawler := {
  index : dict;
  visited : gset string;
  events : list event
}.

(** [WebCrawler.__init__] *)
Definition init : WebCrawler :=
  {| index := []; visited := ∅; events := [] |}.

(** A method body: it runs out of fuel ([None]), or ends in a state,
    returning or raising. *)
Definition M (A : Type) : Type := WebCrawler → option (result A * WebCrawler).

Definition ret {A} (a : A) : M A := λ st, Some (Ok a, st).

Definition raise {A} (e : exn) : M A := λ st, Some (Raise e, st).

Definition bind {A B} (m : M A) (k : A → M B) : M B := λ st,
  match m st with
  | None => None
  | Some (Ok a, st') => k a st'
  | Some (Raise e, st') => Some (Raise e, st')
  end.

Definition try_except {A} (body : M A) (handler : exn → M A) : M A := λ st,
  match body st with
  | None => None
  | Some (Ok a, st') => Some (Ok a, st')
  | Some (Raise e, st') => handler e st'
  end.

Definition out_of_fuel {A} : M A := λ _, None.

Definition lift {A} (r : result A) : M A := λ st, Some (r, st).

Declare Scope crawl_scope.
Delimit Scope crawl_scope with crawl.
Notation "x <- m ;; k" := (bind m (λ x, k))
  (at level 100, m at next level, k at level 200, right associativity) : crawl_scope.
Notation "m ;; k" := (bind m (λ _, k))
  (at level 100, k at level 200, right associativity) : crawl_scope.

Definition emit (e : event) (st : WebCrawler) : WebCrawler :=
  {| index := index st; visited := visited st; events := events st ++ [e] |}.

Definition logging (lvl : level) (msg : string) : M unit := λ st,
  Some (Ok tt, emit (Log lvl msg) st).

Definition visited_add (url : string) : M unit := λ st,
  Some (Ok tt, emit (Add url)
    {| index := index st; visited := {[url]} ∪ visited st; events := events st |}).

Definition index_setitem (url txt : string) : M unit := λ st,
  Some (Ok tt, emit (SetItem url txt)
    {| index := setitem (index st) url txt; visited := visited st;
       events := events st |}).

Definition get_visited : M (gset string) := λ st, Some (Ok (visited st), st).

Section Crawl.
Context `{Collaborators}.
Local Open Scope crawl_scope.

(** [requests.get(url)] *)
Definition http_get (url : string) : M Response := λ st,
  Some (requests_get url, emit (Get url) st).

(** One turn of the loop [for link in soup.find_all('a')], with the
    recursive call [self.crawl] as a parameter. *)
Definition crawl_link (self_crawl : string → option string → M unit)
    (url : string) (base_url : option string) (link : option string) : M unit :=
  match link with
  | None => ret tt
  | Some href =>
      if truthy href then
        href <- lift (urljoin (or_else base_url url) href) ;;
        if startswith href (or_else base_url url) then
          logging DEBUG ("Found internal link: " +:+ href) ;;
          self_crawl href (Some (or_else base_url url))
        else
          logging DEBUG ("Skipping external link: " +:+ href)
      else ret tt
  end.

Fixpoint for_each {A} (l : list A) (body : A → M unit) : M unit :=
  match l with
  | [] => ret tt
  | x :: l' => body x ;; for_each l' body
  end.

(** [WebCrawler.crawl] *)
Fixpoint crawl (fuel : nat) (url : string) (base_url : option string) : M unit :=
  match fuel with
  | 0 => out_of_fuel
  | S fuel' =>
      seen <- get_visited ;;
      if decide (url ∈ seen) then
        logging DEBUG ("Skipping already visited URL: " +:+ url)
      else
        logging INFO ("Crawling URL: " +:+ url) ;;
        visited_add url ;;
        try_except
          (response <- http_get url ;;
           lift (raise_for_status response) ;;
           soup <- lift (BeautifulSoup (text response)) ;;
           index_setitem url (get_text soup) ;;
           logging DEBUG ("Successfully indexed content from " +:+ url) ;;
           for_each (find_all_a soup) (crawl_link (crawl fuel') url base_url))
          (λ e,
             match e with
             | RequestException msg =>
                 logging ERROR ("Error crawling " +:+ url +:+ ": " +:+ msg)
             | Exception msg =>
                 logging ERROR
                   ("Unexpected error while crawling " +:+ url +:+ ": " +:+ msg)
             end)
  end.

End Crawl.

(** [WebCrawler.search]: the loop over [self.index.items()] appends each
    matching URL to [results]. *)
Definition search (st : WebCrawler) (keyword : string) : list string :=
  foldl (λ results '(url, txt),
           if str_in (lower keyword) (lower txt) then results ++ [url]
           else results)
        [] (index st).

(** ** Derived notions used to state the properties *)

(** The messages that [crawl] logs. *)
Definition msg_seen (url : string) : string :=
  "Skipping already visited URL: " +:+ url.
Definition msg_crawling (url : string) : string := "Crawling URL: " +:+ url.
Definition msg_indexed (url : string) : string :=
  "Successfully indexed content from " +:+ url.
Definition msg_internal (href : string) : string :=
  "Found internal link: " +:+ href.
Definition msg_external (href : string) : string :=
  "Skipping external link: " +:+ href.
Definition msg_error (url : string) (e : exn) : string :=
  match e with
  | RequestException msg => "Error crawling " +:+ url +:+ ": " +:+ msg
  | Exception msg => "Unexpected error while crawling " +:+ url +:+ ": " +:+ msg
  end.

Section Notions.
Context `{Collaborators}.

(** What the first three statements of the [try] block make of a URL:
    the parsed page, or the exception of the first call that raises. *)
Definition fetch_page (url : string) : result Soup :=
  match requests_get url with
  | Raise e => Raise e
  | Ok response =>
      match raise_for_status response with
      | Raise e => Raise e
      | Ok _ => BeautifulSoup (text response)
      end
  end.

(** The state after the two statements before [try] and the call of
    [requests.get]. *)
Definition entered (url : string) (st : WebCrawler) : WebCrawler :=
  emit (Get url)
    (emit (Add url)
       {| index := index (emit (Log INFO (msg_crawling url)) st);
          visited := {[url]} ∪ visited st;
          events := events (emit (Log INFO (msg_crawling url)) st) |}).

(** The state when the loop over the links starts. *)
Definition indexed (url : string) (soup : Soup) (st : WebCrawler) : WebCrawler :=
  emit (Log DEBUG (msg_indexed url))
    (emit (SetItem url (get_text soup))
       {| index := setitem (index (entered url st)) url (get_text soup);
          visited := visited (entered url st);
          events := events (entered url st) |}).

(** The state after the [except] clause that catches [e]. *)
Definition handled (url : string) (e : exn) (st : WebCrawler) : WebCrawler :=
  emit (Log ERROR (msg_error url e)) st.

(** How the [try] statement ends, given how its block ended. *)
Definition finished (url : string) (r : result unit) (st : WebCrawler) : WebCrawler :=
  match r with
  | Ok _ => st
  | Raise e => handled url e st
  end.

(** Big-step reading of [crawl] and of its loop: [Crawl url base_url st st']
    says that the call [self.crawl(url, base_url)] started in [st] returns
    in [st']; [Links url base_url links st r st'] says that the loop over
    [links] started in [st] ends in [st'], normally or with an exception. *)
Inductive Crawl : string → option string → WebCrawler → WebCrawler → Prop :=
  | Crawl_seen url base_url st :
      url ∈ visited st →
      Crawl url base_url st
        (emit (Log DEBUG (msg_seen url)) st)
  | Crawl_failed url base_url st e :
      url ∉ visited st →
      fetch_page url = Raise e →
      Crawl url base_url st (handled url e (entered url st))
  | Crawl_page url base_url st soup r st' :
      url ∉ visited st →
      fetch_page url = Ok soup →
      Links url base_url (find_all_a soup) (indexed url soup st) r st' →
      Crawl url base_url st (finished url r st')
with Links : string → option string → list (option string) →
             WebCrawler → result unit → WebCrawler → Prop :=
  | Links_done url base_url st :
      Links url base_url [] st (Ok tt) st
  | Links_no_href url base_url links st r st' :
      Links url base_url links st r st' →
      Links url base_url (None :: links) st r st'
  | Links_empty_href url base_url href links st r st' :
      truthy href = false →
      Links url base_url links st r st' →
      Links url base_url (Some href :: links) st r st'
  | Links_raise url base_url href links st e :
      truthy href = true →
      urljoin (or_else base_url url) href = Raise e →
      Links url base_url (Some href :: links) st (Raise e) st
  | Links_external url base_url href links st target r st' :
      truthy href = true →
      urljoin (or_else base_url url) href = Ok target →
      startswith target (or_else base_url url) = false →
      Links url base_url links
        (emit (Log DEBUG (msg_external target)) st) r st' →
      Links url base_url (Some href :: links) st r st'
  | Links_internal url base_url href links st target st1 r st' :
      truthy href = true →
      urljoin (or_else base_url url) href = Ok target →
      startswith target (or_else base_url url) = true →
      Crawl target (Some (or_else base_url url))
        (emit (Log DEBUG (msg_internal target)) st) st1 →
      Links url base_url links st1 r st' →
      Links url base_url (Some href :: links) st r st'.

Scheme Crawl_Links_ind := Minimality for Crawl Sort Prop
  with Links_Crawl_ind := Minimality for Links Sort Prop.
Combined Scheme Crawl_mutind from Crawl_Links_ind, Links_Crawl_ind.

(** The fetch of [url] and the parsing of its body both succeed. *)
Definition parsed (url : string) : Prop := ∃ soup, fetch_page url = Ok soup.

(** *** Reachability *)

(** The turn of the loop on [link] with scope prefix [b] does not raise. *)
Definition resolves (b : string) (link : option string) : Prop :=
  match link with
  | Some href => truthy href = true → ∃ target, urljoin b href = Ok target
  | None => True
  end.

(** [links_to b u v]: the page at [u] was fetched and parsed, and one of
    its anchors has a non-empty href that resolves against [b] to [v],
    which starts with [b]. *)
Definition links_to (b u v : string) : Prop :=
  ∃ soup href,
    fetch_page u = Ok soup ∧ Some href ∈ find_all_a soup ∧
    truthy href = true ∧ urljoin b href = Ok v ∧ startswith v b = true.

(** [follows b u v]: as [links_to], and no anchor before that one on the
    page has an href whose resolution raises. *)
Definition follows (b u v : string) : Prop :=
  ∃ soup pre href post,
    fetch_page u = Ok soup ∧ find_all_a soup = pre ++ Some href :: post ∧
    Forall (resolves b) pre ∧
    truthy href = true ∧ urljoin b href = Ok v ∧ startswith v b = true.

(** The URLs the loop over [links] calls [self.crawl] on, in order. *)
Fixpoint targets (b : string) (links : list (option string)) : list string :=
  match links with
  | [] => []
  | None :: links' => targets b links'
  | Some href :: links' =>
      if truthy href then
        match urljoin b href with
        | Raise _ => []
        | Ok target =>
            if startswith target b then target :: targets b links'
            else targets b links'
        end
      else targets b links'
  end.

(** One call of [crawl] may make another: [calls (u, bu) (v, bv)] says
    that the page at [u] links to [v] in the scope of the call
    [crawl(u, bu)], which then passes [bv] on. *)
Definition calls (c c' : string * option string) : Prop :=
  links_to (or_else c.2 c.1) c.1 c'.1 ∧ c'.2 = Some (or_else c.2 c.1).

(** *** Traces *)

(** The two fields of the object, and what an event does to them. *)
Definition fields (st : WebCrawler) : gset string * dict :=
  (visited st, index st).

Definition apply_event (σ : gset string * dict) (e : event) : gset string * dict :=
  match e with
  | Add url => ({[url]} ∪ σ.1, σ.2)
  | SetItem url txt => (σ.1, setitem σ.2 url txt)
  | Log _ _ | Get _ => σ
  end.

Definition replay (σ : gset string * dict) (evs : list event) : gset string * dict :=
  foldl apply_event σ evs.

(** Every key of the index is a visited URL. *)
Definition index_within_visited (σ : gset string * dict) : Prop :=
  ∀ url, url ∈ keys σ.2 → url ∈ σ.1.

(** What may happen in a state: a URL is added only when absent, and is
    requested or indexed only when present. *)
Definition event_ok (σ : gset string * dict) (e : event) : Prop :=
  match e with
  | Add url => url ∉ σ.1
  | Get url => url ∈ σ.1
  | SetItem url txt =>
      url ∈ σ.1 ∧ ∃ soup, fetch_page url = Ok soup ∧ txt = get_text soup
  | Log _ _ => True
  end.

Fixpoint trace_ok (σ : gset string * dict) (evs : list event) : Prop :=
  match evs with
  | [] => True
  | e :: evs' => event_ok σ e ∧ trace_ok (apply_event σ e) evs'
  end.

(** The URLs of the [requests.get] calls and of the [visited.add] calls
    of a trace, in order. *)
Definition fetched (evs : list event) : list string :=
  omap (λ e, match e with Get url => Some url | _ => None end) evs.

Definition added (evs : list event) : list string :=
  omap (λ e, match e with Add url => Some url | _ => None end) evs.

(** [extends st st']: [st'] comes from [st] by a trace that is allowed
    at every step and that requests exactly the URLs it adds, in the same
    order. *)
Definition extends (st st' : WebCrawler) : Prop :=
  ∃ evs,
    events st' = events st ++ evs ∧
    fields st' = replay (fields st) evs ∧
    trace_ok (fields st) evs ∧
    fetched evs = added evs.

End Notions.

(** [search] as the specification words it: the keys of the entries whose
    lowercased text contains the lowercased keyword, in index order. *)
Definition search_spec (st : WebCrawler) (keyword : string) : list string :=
  (filter (λ entry, str_in (lower keyword) (lower entry.2) = true) (index st)).*1.

(** ** Concrete sites *)

(** A site given by a table: the pages that exist, each with its parsed
    document. A request for a URL of the table returns a response whose
    body is named by the URL; any other request raises. *)
Fixpoint page_of (pages : list (string * Soup)) (url : string) : option Soup :=
  match pages with
  | [] => None
  | (u, soup) :: pages' => if decide (url = u) then Some soup else page_of pages' url
  end.

Definition site_of (pages : list (string * Soup))
    (join : string → string → result string) : Collaborators :=
  {| requests_get url :=
       match page_of pages url with
       | Some _ => Ok {| raise_for_status := Ok tt; text := url |}
       | None => Raise (RequestException "Network Error")
       end;
     BeautifulSoup body :=
       match page_of pages body with
       | Some soup => Ok soup
       | None => Raise (Exception "cannot parse")
       end;
     urljoin := join |}.

(** [urllib.parse.urljoin] for a base of the form scheme://host and
    hrefs of four shapes: an absolute http(s) URL, a path from the root,
    a fragment, and a network-path reference with an unclosed bracket,
    on which [urljoin] raises [ValueError("Invalid IPv6 URL")]. *)
Definition urljoin_origin (base href : string) : result string :=
  if startswith href "//[" then Raise (Exception "Invalid IPv6 URL")
  else if startswith href "http://" || startswith href "https://" then Ok href
  else Ok (base +:+ href).

Definition leaf (txt : string) : Soup := {| get_text := txt; find_all_a := [] |}.

(** The seed page links to [/about], to another host and to
    [/about#frag]. *)
Definition about_site : Collaborators :=
  site_of
    [("https://example.com",
      {| get_text := "Welcome!";
         find_all_a := [Some "/about"; Some "https://external.com";
                        Some "/about#frag"] |});
     ("https://example.com/about", leaf "About Us");
     ("https://example.com/about#frag", leaf "About Us");
     ("https://external.com", leaf "Elsewhere")]
    urljoin_origin.

(** The page of [test_crawl_success]: one anchor without href added. *)
Definition welcome_site : Collaborators :=
  site_of
    [("https://example.com",
      {| get_text := "Welcome! About Us External Link Contact Section Link";
         find_all_a := [Some "/about"; Some "https://www.external.com";
                        Some "/contact"; None; Some "#section"] |});
     ("https://example.com/about", leaf "About Us");
     ("https://example.com/contact", leaf "Contact");
     ("https://example.com#section", leaf "Welcome!")]
    urljoin_origin.

(** A chain of three pages, the last of which links back to the first. *)
Definition chain_site : Collaborators :=
  site_of
    [("https://example.com",
      {| get_text := "Page A"; find_all_a := [Some "/b"] |});
     ("https://example.com/b",
      {| get_text := "Page B"; find_all_a := [Some "/c"] |});
     ("https://example.com/c",
      {| get_text := "Page C"; find_all_a := [Some "https://example.com"] |})]
    urljoin_origin.

(** No page can be fetched. *)
Definition offline_site : Collaborators := site_of [] urljoin_origin.

(** The first href of the seed page cannot be resolved. *)
Definition bad_href_site : Collaborators :=
  site_of
    [("https://example.com",
      {| get_text := "Welcome!"; find_all_a := [Some "//["; Some "/about"] |});
     ("https://example.com/about", leaf "About Us")]
    urljoin_origin.

(** The seed page links to a host whose name extends the seed. *)
Definition evil_site : Collaborators :=
  site_of
    [("https://example.com",
      {| get_text := "Welcome!";
         find_all_a := [Some "https://example.com.evil.com"] |});
     ("https://example.com.evil.com", leaf "Gotcha")]
    urljoin_origin.

(** A page outside the scope it is crawled with. *)
Definition blog_site : Collaborators :=
  site_of
    [("https://blog.example.org",
      {| get_text := "Blog";
         find_all_a := [Some "https://blog.example.org/post";
                        Some "https://example.com/about"] |});
     ("https://blog.example.org/post", leaf "Post");
     ("https://example.com/about", leaf "About Us")]
    urljoin_origin.

(** The state a run ended in. *)
Definition ended (run : option (result unit * WebCrawler)) : WebCrawler :=
  match run with
  | Some (_, st) => st
  | None => init
  end.

(** ** Presenting results, and the entry point *)

(** [WebCrawler.print_results]: the lines it prints, in order. *)
Definition print_results (results : list string) : list string :=
  match results with
  | [] => ["No results found."]
  | _ :: _ => "Search results:" :: map (λ result, "- " +:+ result) results
  end.

(** [main]: a fresh crawler crawls the fixed start URL, searches for the
    fixed keyword and prints the results. It runs out of fuel, or ends
    with the printed lines, or with the exception [crawl] let through. *)
Definition main `{Collaborators} (fuel : nat) : option (result (list string)) :=
  match crawl fuel "https://example.com" None init with
  | None => None
  | Some (Raise e, _) => Some (Raise e)
  | Some (Ok _, crawler) => Some (Ok (print_results (search crawler "test")))
  end.

(** The anchors on which the loop of [crawl] does something. *)
Definition has_href (link : option string) : bool :=
  match link with
  | Some href => truthy href
  | None => false
  end.

(** A start page that links to a page whose text has the keyword of
    [main] in capitals, and to one without it. *)
Definition testing_site : Collaborators :=
  site_of
    [("https://example.com",
      {| get_text := "Home"; find_all_a := [Some "/tests"; Some "/news"] |});
     ("https://example.com/tests", leaf "All TESTS passed");
     ("https://example.com/news", leaf "News")]
    urljoin_origin.

(** * Properties *)

(** ** Strings *)

Lemma startswith_nil s : startswith s "" = true.
Proof. by destruct s. Qed.

Lemma startswith_refl s : startswith s s = true.
Proof. induction s as [|c s IH]; simpl; [done|]. by rewrite decide_True. Qed.

Lemma startswith_app p t : startswith (p +:+ t) p = true.
Proof. induction p as [|c p IH]; simpl; [done|]. by rewrite decide_True. Qed.

Lemma startswith_spec s p : startswith s p = true ↔ ∃ t, s = p +:+ t.
Proof.
  split.
  - revert s. induction p as [|c p IH]; intros s Hs; simpl in *.
    + by exists s.
    + destruct s as [|d s]; [done|]. case_decide; [|done]. subst d.
      destruct (IH _ Hs) as [t ->]. by exists t.
  - intros [t ->]. apply startswith_app.
Qed.

Lemma str_in_startswith sub s : startswith s sub = true → str_in sub s = true.
Proof. intros Hs. destruct s; simpl; by rewrite Hs. Qed.

Lemma str_in_spec sub s : str_in sub s = true ↔ ∃ a b, s = a +:+ sub +:+ b.
Proof.
  split.
  - induction s as [|c s IH]; simpl; rewrite orb_true_iff.
    + intros [Hp|]; [|done]. apply startswith_spec in Hp as [t Ht]. by exists "", t.
    + intros [Hp|Hin].
      * apply startswith_spec in Hp as [t Ht]. by exists "", t.
      * destruct (IH Hin) as (a & b & ->). by exists (String c a), b.
  - intros (a & b & ->). induction a as [|c a IH]; simpl.
    + change ("" +:+ sub +:+ b) with (sub +:+ b).
      apply str_in_startswith, startswith_app.
    + by rewrite IH, orb_true_r.
Qed.

Lemma str_in_nil s : str_in "" s = true.
Proof. apply str_in_spec. by exists "", s. Qed.

Lemma truthy_or_else base_url url :
  truthy url = true → truthy (or_else base_url url) = true.
Proof. destruct base_url as [b|]; simpl; [|done]. by destruct (truthy b) eqn:E. Qed.

Lemma or_else_truthy b url : truthy b = true → or_else (Some b) url = b.
Proof. simpl. by intros ->. Qed.

(** ** The function and its big-step reading *)

Section Semantics.
Context `{Collaborators}.

Lemma crawl_unfold fuel url base_url st :
  crawl (S fuel) url base_url st =
  if decide (url ∈ visited st) then
    Some (Ok tt, emit (Log DEBUG (msg_seen url)) st)
  else
    match fetch_page url with
    | Raise e => Some (Ok tt, handled url e (entered url st))
    | Ok soup =>
        match for_each (find_all_a soup) (crawl_link (crawl fuel) url base_url)
                (indexed url soup st) with
        | None => None
        | Some (r, st') => Some (Ok tt, finished url r st')
        end
    end.
Proof.
  simpl. unfold bind at 1. simpl. case_decide; [done|].
  unfold bind, try_except, fetch_page, http_get, lift, logging, visited_add,
    index_setitem, indexed, entered, finished, handled, msg_error, msg_indexed,
    msg_crawling. simpl.
  destruct (requests_get url) as [resp|[]]; simpl; try done.
  destruct (raise_for_status resp) as [[]|[]]; simpl; try done.
  destruct (BeautifulSoup (text resp)) as [soup|[]]; simpl; try done.
  match goal with |- context [for_each ?l ?f ?s] => destruct (for_each l f s) as [[[[]|[]] ?]|] end;
    reflexivity.
Qed.

Lemma crawl_link_unfold self_crawl url base_url link st :
  crawl_link self_crawl url base_url link st =
  match link with
  | None => Some (Ok tt, st)
  | Some href =>
      if truthy href then
        match urljoin (or_else base_url url) href with
        | Raise e => Some (Raise e, st)
        | Ok target =>
            if startswith target (or_else base_url url) then
              self_crawl target (Some (or_else base_url url))
                (emit (Log DEBUG (msg_internal target)) st)
            else
              Some (Ok tt, emit (Log DEBUG (msg_external target)) st)
        end
      else Some (Ok tt, st)
  end.
Proof.
  destruct link as [href|]; [|done]. simpl.
  destruct (truthy href); [|done]. unfold bind, lift.
  destruct (urljoin _ href) as [target|e]; [|done].
  by destruct (startswith target _).
Qed.

Lemma for_each_cons {A} (x : A) l body st :
  for_each (x :: l) body st =
  match body x st with
  | None => None
  | Some (Ok _, st1) => for_each l body st1
  | Some (Raise e, st1) => Some (Raise e, st1)
  end.
Proof. done. Qed.

(** Whatever [crawl] computes is a run of the big-step reading, and it
    never ends with an exception. *)
Lemma crawl_sound fuel url base_url st r st' :
  crawl fuel url base_url st = Some (r, st') →
  r = Ok tt ∧ Crawl url base_url st st'.
Proof.
  revert url base_url st r st'.
  induction fuel as [|fuel IH]; intros url base_url st r st'; [done|].
  rewrite crawl_unfold. case_decide as Hseen.
  { intros [= <- <-]. split; [done|]. by constructor. }
  destruct (fetch_page url) as [soup|e] eqn:Hpage.
  2:{ intros [= <- <-]. split; [done|]. by constructor. }
  destruct (for_each _ _ _) as [[r1 st1]|] eqn:Hloop; [|done].
  intros [= <- <-]. split; [done|].
  eapply Crawl_page; [done..|].
  clear Hpage Hseen. revert Hloop.
  generalize (indexed url soup st). generalize (find_all_a soup).
  intros links. induction links as [|link links IHl]; intros st0.
  { intros [= <- <-]. constructor. }
  rewrite for_each_cons, crawl_link_unfold.
  destruct link as [href|]; [|by intros ?%IHl; constructor].
  destruct (truthy href) eqn:Hhref; [|by intros ?%IHl; constructor].
  destruct (urljoin _ href) as [target|e] eqn:Hjoin.
  2:{ intros [= <- <-]. by constructor. }
  destruct (startswith target _) eqn:Hscope.
  - destruct (crawl fuel _ _ _) as [[r2 st2]|] eqn:Hcall; [|done].
    apply IH in Hcall as [-> Hcall]. intros Hrest%IHl.
    by eapply Links_internal.
  - intros Hrest%IHl. by eapply Links_external.
Qed.

End Semantics.

#[global] Opaque msg_seen msg_crawling msg_indexed msg_internal msg_external
  msg_error.

(** ** The fields after each step *)

Section Fields.
Context `{Collaborators}.

Lemma visited_emit e st : visited (emit e st) = visited st.
Proof. done. Qed.

Lemma index_emit e st : index (emit e st) = index st.
Proof. done. Qed.

Lemma visited_entered url st : visited (entered url st) = {[url]} ∪ visited st.
Proof. done. Qed.

Lemma index_entered url st : index (entered url st) = index st.
Proof. done. Qed.

Lemma visited_indexed url soup st :
  visited (indexed url soup st) = {[url]} ∪ visited st.
Proof. done. Qed.

Lemma index_indexed url soup st :
  index (indexed url soup st) = setitem (index st) url (get_text soup).
Proof. done. Qed.

Lemma visited_handled url e st : visited (handled url e st) = visited st.
Proof. done. Qed.

Lemma index_handled url e st : index (handled url e st) = index st.
Proof. done. Qed.

Lemma visited_finished url r st : visited (finished url r st) = visited st.
Proof. destruct r; [done|apply visited_handled]. Qed.

Lemma index_finished url r st : index (finished url r st) = index st.
Proof. destruct r; [done|apply index_handled]. Qed.

End Fields.

Create HintDb fields discriminated.
#[global] Hint Rewrite @visited_emit @index_emit @visited_entered @index_entered
  @visited_indexed @index_indexed @visited_handled @index_handled
  @visited_finished @index_finished : fields.

Ltac fields := autorewrite with fields in *.

(** ** The dictionary *)

Lemma elem_of_keys_setitem d k v k' :
  k' ∈ keys (setitem d k v) ↔ k' = k ∨ k' ∈ keys d.
Proof.
  unfold keys. induction d as [|[k0 v0] d IH]; simpl.
  - set_solver.
  - case_decide; simpl; [subst|]; set_solver.
Qed.

Lemma getitem_setitem d k v : getitem (setitem d k v) k = Some v.
Proof.
  induction d as [|[k0 v0] d IH]; simpl.
  - by rewrite decide_True.
  - case_decide; simpl; [by rewrite decide_True|]. by rewrite decide_False.
Qed.

Lemma getitem_setitem_ne d k v k' : k' ≠ k → getitem (setitem d k v) k' = getitem d k'.
Proof.
  intros Hne. induction d as [|[k0 v0] d IH]; simpl.
  - by rewrite decide_False.
  - case_decide; simpl; [subst; by rewrite !decide_False|].
    case_decide; [done|apply IH].
Qed.

Lemma setitem_fresh d k v : k ∉ keys d → setitem d k v = d ++ [(k, v)].
Proof.
  unfold keys. induction d as [|[k0 v0] d IH]; simpl; [done|].
  intros Hk. rewrite decide_False by set_solver. f_equal. apply IH. set_solver.
Qed.

Lemma elem_of_keys_getitem d k : k ∈ keys d ↔ is_Some (getitem d k).
Proof.
  unfold keys. induction d as [|[k0 v0] d IH]; simpl.
  - split; [set_solver|by intros [? ?]].
  - case_decide; [subst; split; [eauto|set_solver]|].
    rewrite <- IH. set_solver.
Qed.

(** ** Scope: what a call may add to the visited set *)

Section Scope.
Context `{Collaborators}.

Lemma startswith_nested b target v :
  startswith target b = true →
  v = target ∨ startswith v (or_else (Some b) target) = true →
  startswith v b = true.
Proof.
  intros Ht [->|Hv]; [done|]. simpl in Hv.
  destruct (truthy b) eqn:Hb; [done|]. destruct b; [apply startswith_nil|done].
Qed.

(** The visited set only grows; the call's own URL is in it afterwards;
    every other new member starts with the scope prefix. *)
Lemma crawl_scope_mutual :
  (∀ url base_url st st', Crawl url base_url st st' →
     visited st ⊆ visited st' ∧ url ∈ visited st' ∧
     ∀ v, v ∈ visited st' → v ∈ visited st ∨ v = url ∨
          startswith v (or_else base_url url) = true) ∧
  (∀ url base_url links st r st', Links url base_url links st r st' →
     visited st ⊆ visited st' ∧
     ∀ v, v ∈ visited st' → v ∈ visited st ∨
          startswith v (or_else base_url url) = true).
Proof.
  apply Crawl_mutind.
  - (* already visited *)
    intros url base_url st Hin. fields. split_and!; [done|done|auto].
  - (* the fetch or the parse raised *)
    intros url base_url st e Hn Hp. fields.
    split_and!; [set_solver|set_solver|].
    intros v [->%elem_of_singleton|Hv]%elem_of_union; auto.
  - (* the page was indexed *)
    intros url base_url st soup r st' Hn Hp _ [Hm Hs]. fields.
    split_and!; [set_solver|set_solver|].
    intros v Hv. destruct (Hs v Hv) as [[->%elem_of_singleton|?]%elem_of_union|?];
      auto.
  - intros. split; [done|auto].
  - intros url base_url links st r st' _ IH. exact IH.
  - intros url base_url href links st r st' _ _ IH. exact IH.
  - intros. split; [done|auto].
  - intros url base_url href links st target r st' _ _ _ _ IH. fields. exact IH.
  - (* an internal link *)
    intros url base_url href links st target st1 r st' _ _ Hscope _
      (Hm1 & Hself & Hs1) _ (Hm2 & Hs2). fields.
    split; [set_solver|]. intros v Hv.
    destruct (Hs2 v Hv) as [Hv1|?]; [|by right].
    destruct (Hs1 v Hv1) as [?|Hv2]; [by left|right].
    by eapply startswith_nested.
Qed.

Lemma Crawl_mono url base_url st st' :
  Crawl url base_url st st' → visited st ⊆ visited st'.
Proof. intros Hc. by apply crawl_scope_mutual in Hc as (? & ? & ?). Qed.

Lemma Crawl_self url base_url st st' :
  Crawl url base_url st st' → url ∈ visited st'.
Proof. intros Hc. by apply crawl_scope_mutual in Hc as (? & ? & ?). Qed.

Lemma Crawl_scope url base_url st st' v :
  Crawl url base_url st st' → v ∈ visited st' →
  v ∈ visited st ∨ v = url ∨ startswith v (or_else base_url url) = true.
Proof. intros Hc. apply crawl_scope_mutual in Hc as (? & ? & Hs). apply Hs. Qed.

Lemma Links_mono url base_url links st r st' :
  Links url base_url links st r st' → visited st ⊆ visited st'.
Proof. intros Hl. by apply (proj2 crawl_scope_mutual) in Hl as (? & ?). Qed.

End Scope.
(** ** The index: which keys a call adds, and which entries it keeps *)

Section Index.
Context `{Collaborators}.

Lemma crawl_keys_mutual :
  (∀ url base_url st st', Crawl url base_url st st' →
     ∀ u, u ∈ keys (index st') ↔
          u ∈ keys (index st) ∨ (u ∈ visited st' ∧ u ∉ visited st ∧ parsed u)) ∧
  (∀ url base_url links st r st', Links url base_url links st r st' →
     ∀ u, u ∈ keys (index st') ↔
          u ∈ keys (index st) ∨ (u ∈ visited st' ∧ u ∉ visited st ∧ parsed u)).
Proof.
  assert (∀ (P : Prop) (V : gset string) (u : string) (Q : Prop),
            P ↔ P ∨ (u ∈ V ∧ u ∉ V ∧ Q)) as Hsame.
  { intros P V u Q. split; [by left|]. by intros [?|(? & ? & _)]. }
  apply Crawl_mutind.
  - intros url base_url st Hin u. fields. apply Hsame.
  - (* the fetch or the parse raised *)
    intros url base_url st e Hn Hp u. fields.
    split; [by left|]. intros [?|(Hu & Hnu & soup & Hs)]; [done|].
    apply elem_of_union in Hu as [->%elem_of_singleton|?]; [congruence|done].
  - (* the page was indexed *)
    intros url base_url st soup r st' Hn Hp Hl IH u.
    apply Links_mono in Hl as Hm. fields.
    rewrite IH. fields. rewrite elem_of_keys_setitem. split.
    + intros [[->|?]|(Hu & Hnu & ?)]; [right|by left|right].
      * split_and!; [set_solver|done|by exists soup].
      * split_and!; [done|set_solver|done].
    + intros [?|(? & ? & ?)]; [by left; right|].
      destruct (decide (u = url)) as [->|?]; [by left; left|].
      right. split_and!; [done|set_solver|done].
  - intros url base_url st u. apply Hsame.
  - intros url base_url links st r st' _ IH. exact IH.
  - intros url base_url href links st r st' _ _ IH. exact IH.
  - intros url base_url href links st e _ _ u. apply Hsame.
  - intros url base_url href links st target r st' _ _ _ _ IH u.
    rewrite IH. by fields.
  - (* an internal link *)
    intros url base_url href links st target st1 r st' _ _ _ Hc IH1 Hl IH2 u.
    apply Crawl_mono in Hc as Hm1. apply Links_mono in Hl as Hm2. fields.
    rewrite IH2, IH1. fields. split.
    + intros [[?|(? & ? & ?)]|(? & ? & ?)]; [by left|right..].
      * split_and!; [set_solver|done|done].
      * split_and!; [done|set_solver|done].
    + intros [?|(? & ? & ?)]; [by left; left|].
      destruct (decide (u ∈ visited st1)); [left; right|right]; done.
Qed.

(** A call leaves the entries of the URLs visited before it alone. *)
Lemma crawl_getitem_mutual :
  (∀ url base_url st st', Crawl url base_url st st' →
     ∀ u, u ∈ visited st → getitem (index st') u = getitem (index st) u) ∧
  (∀ url base_url links st r st', Links url base_url links st r st' →
     ∀ u, u ∈ visited st → getitem (index st') u = getitem (index st) u).
Proof.
  apply Crawl_mutind.
  - intros. by fields.
  - intros. by fields.
  - (* the page was indexed *)
    intros url base_url st soup r st' Hn Hp Hl IH u Hu. fields.
    rewrite IH by (fields; set_solver). fields.
    apply getitem_setitem_ne. set_solver.
  - done.
  - intros url base_url links st r st' _ IH. exact IH.
  - intros url base_url href links st r st' _ _ IH. exact IH.
  - done.
  - intros url base_url href links st target r st' _ _ _ _ IH u Hu.
    rewrite IH by (by fields). by fields.
  - (* an internal link *)
    intros url base_url href links st target st1 r st' _ _ _ Hc IH1 Hl IH2 u Hu.
    apply Crawl_mono in Hc as Hm1. fields.
    rewrite IH2 by set_solver. rewrite IH1 by (by fields). by fields.
Qed.

(** A page that was fetched and parsed by this call is in the index with
    its text. *)
Lemma Crawl_indexed url base_url st st' soup :
  Crawl url base_url st st' → url ∉ visited st → fetch_page url = Ok soup →
  getitem (index st') url = Some (get_text soup).
Proof.
  intros Hc Hn Hs. inversion Hc; subst; [done|congruence|].
  fields. match goal with Hl : Links _ _ _ _ _ _ |- _ =>
    rewrite (proj2 crawl_getitem_mutual _ _ _ _ _ _ Hl) by (fields; set_solver) end.
  fields. rewrite getitem_setitem. congruence.
Qed.

End Index.
(** ** Traces *)

Section Traces.
Context `{Collaborators}.

Lemma replay_app σ evs1 evs2 :
  replay σ (evs1 ++ evs2) = replay (replay σ evs1) evs2.
Proof. apply foldl_app. Qed.

Lemma trace_ok_app σ evs1 evs2 :
  trace_ok σ (evs1 ++ evs2) ↔ trace_ok σ evs1 ∧ trace_ok (replay σ evs1) evs2.
Proof.
  revert σ. induction evs1 as [|e evs1 IH]; intros σ; simpl; [naive_solver|].
  rewrite IH. naive_solver.
Qed.

Lemma fetched_app evs1 evs2 : fetched (evs1 ++ evs2) = fetched evs1 ++ fetched evs2.
Proof. apply omap_app. Qed.

Lemma added_app evs1 evs2 : added (evs1 ++ evs2) = added evs1 ++ added evs2.
Proof. apply omap_app. Qed.

Lemma extends_refl st : extends st st.
Proof. exists []. by rewrite app_nil_r. Qed.

Lemma extends_trans st1 st2 st3 : extends st1 st2 → extends st2 st3 → extends st1 st3.
Proof.
  intros (evs1 & He1 & Hf1 & Hok1 & Hg1) (evs2 & He2 & Hf2 & Hok2 & Hg2).
  exists (evs1 ++ evs2). split_and!.
  - by rewrite He2, He1, app_assoc.
  - by rewrite replay_app, <- Hf1.
  - apply trace_ok_app. by rewrite <- Hf1.
  - by rewrite fetched_app, added_app, Hg1, Hg2.
Qed.

Lemma extends_log lvl msg st : extends st (emit (Log lvl msg) st).
Proof. by exists [Log lvl msg]. Qed.

Lemma extends_entered url st : url ∉ visited st → extends st (entered url st).
Proof.
  intros Hn. exists [Log INFO (msg_crawling url); Add url; Get url].
  split_and!; simpl; try done.
  - by rewrite <- !app_assoc.
  - split_and!; [done..|set_solver|done].
Qed.

Lemma extends_indexed url soup st :
  url ∉ visited st → fetch_page url = Ok soup → extends st (indexed url soup st).
Proof.
  intros Hn Hs. eapply extends_trans; [by apply extends_entered|].
  exists [SetItem url (get_text soup);
          Log DEBUG (msg_indexed url)].
  split_and!; simpl; try done.
  - by rewrite <- !app_assoc.
  - split_and!; [set_solver|eauto|done..].
Qed.

Lemma extends_handled url e st : extends st (handled url e st).
Proof. apply extends_log. Qed.

Lemma extends_finished url r st : extends st (finished url r st).
Proof. destruct r; [apply extends_refl|apply extends_handled]. Qed.

Lemma crawl_extends_mutual :
  (∀ url base_url st st', Crawl url base_url st st' → extends st st') ∧
  (∀ url base_url links st r st', Links url base_url links st r st' →
     extends st st').
Proof.
  apply Crawl_mutind.
  - intros. apply extends_log.
  - intros. eapply extends_trans; [by apply extends_entered|apply extends_handled].
  - intros url base_url st soup r st' Hn Hp _ IH.
    eapply extends_trans; [by apply extends_indexed|].
    eapply extends_trans; [exact IH|apply extends_finished].
  - intros. apply extends_refl.
  - intros url base_url links st r st' _ IH. exact IH.
  - intros url base_url href links st r st' _ _ IH. exact IH.
  - intros. apply extends_refl.
  - intros url base_url href links st target r st' _ _ _ _ IH.
    eapply extends_trans; [apply extends_log|exact IH].
  - intros url base_url href links st target st1 r st' _ _ _ _ IH1 _ IH2.
    eapply extends_trans; [apply extends_log|].
    eapply extends_trans; [exact IH1|exact IH2].
Qed.

End Traces.

(** ** Reachability *)

Section Reach.
Context `{Collaborators}.

Lemma elem_of_targets b links v :
  v ∈ targets b links ↔
  ∃ pre href post,
    links = pre ++ Some href :: post ∧ Forall (resolves b) pre ∧
    truthy href = true ∧ urljoin b href = Ok v ∧ startswith v b = true.
Proof.
  split.
  - induction links as [|[href|] links IH]; simpl; [by intros ?%elem_of_nil| |].
    + destruct (truthy href) eqn:Hh.
      * destruct (urljoin b href) as [t|e] eqn:Hj; [|by intros ?%elem_of_nil].
        destruct (startswith t b) eqn:Hs.
        -- intros [->|Hv]%elem_of_cons; [by exists [], href, links|].
           destruct (IH Hv) as (pre & h & post & -> & Hpre & ?).
           exists (Some href :: pre), h, post. split; [done|].
           split; [|done]. constructor; [|done]. simpl. eauto.
        -- intros Hv. destruct (IH Hv) as (pre & h & post & -> & Hpre & ?).
           exists (Some href :: pre), h, post. split; [done|].
           split; [|done]. constructor; [|done]. simpl. eauto.
      * intros Hv. destruct (IH Hv) as (pre & h & post & -> & Hpre & ?).
        exists (Some href :: pre), h, post. split; [done|].
        split; [|done]. constructor; [|done]. simpl. congruence.
    + intros Hv. destruct (IH Hv) as (pre & h & post & -> & Hpre & ?).
      exists (None :: pre), h, post. split; [done|].
      split; [|done]. by constructor.
  - intros (pre & href & post & -> & Hpre & Hh & Hj & Hs).
    induction Hpre as [|[h|] pre Hr Hpre IH]; simpl.
    + rewrite Hh, Hj, Hs. apply elem_of_cons. by left.
    + destruct (truthy h) eqn:Hth; [|done].
      destruct (Hr Hth) as [t ->]. destruct (startswith t b); [|done].
      apply elem_of_cons. by right.
    + done.
Qed.

Lemma follows_targets b u v :
  follows b u v ↔ ∃ soup, fetch_page u = Ok soup ∧ v ∈ targets b (find_all_a soup).
Proof.
  unfold follows. setoid_rewrite elem_of_targets. naive_solver.
Qed.



Lemma targets_internal b href links target :
  truthy href = true → urljoin b href = Ok target → startswith target b = true →
  targets b (Some href :: links) = target :: targets b links.
Proof. intros Hh Hj Hs. simpl. by rewrite Hh, Hj, Hs. Qed.

Lemma targets_external b href links target :
  truthy href = true → urljoin b href = Ok target → startswith target b = false →
  targets b (Some href :: links) = targets b links.
Proof. intros Hh Hj Hs. simpl. by rewrite Hh, Hj, Hs. Qed.

Lemma targets_raise b href links e :
  truthy href = true → urljoin b href = Raise e →
  targets b (Some href :: links) = [].
Proof. intros Hh Hj. simpl. by rewrite Hh, Hj. Qed.

Lemma targets_empty_href b href links :
  truthy href = false → targets b (Some href :: links) = targets b links.
Proof. intros Hh. simpl. by rewrite Hh. Qed.

(** Everything a call adds is reached from its URL along followed links. *)
Lemma crawl_reach_mutual :
  (∀ url base_url st st', Crawl url base_url st st' →
     truthy (or_else base_url url) = true →
     ∀ v, v ∈ visited st' →
          v ∈ visited st ∨ rtc (follows (or_else base_url url)) url v) ∧
  (∀ url base_url links st r st', Links url base_url links st r st' →
     truthy (or_else base_url url) = true →
     ∀ v, v ∈ visited st' →
          v ∈ visited st ∨
          ∃ t, t ∈ targets (or_else base_url url) links ∧
               rtc (follows (or_else base_url url)) t v).
Proof.
  apply Crawl_mutind.
  - intros url base_url st Hin _ v Hv. fields. by left.
  - (* the fetch or the parse raised *)
    intros url base_url st e Hn Hp _ v Hv. fields.
    apply elem_of_union in Hv as [->%elem_of_singleton|?]; [by right|by left].
  - (* the page was indexed *)
    intros url base_url st soup r st' Hn Hp _ IH Hb v Hv. fields.
    destruct (IH Hb v Hv) as [Hv'|(t & Ht & Hr)].
    + fields. apply elem_of_union in Hv' as [->%elem_of_singleton|?];
        [by right|by left].
    + right. eapply rtc_l; [|done]. apply follows_targets. eauto.
  - intros url base_url st _ v Hv. by left.
  - intros url base_url links st r st' _ IH. exact IH.
  - intros url base_url href links st r st' Hh _ IH Hb v Hv.
    rewrite targets_empty_href by done. auto.
  - intros url base_url href links st e _ _ _ v Hv. by left.
  - intros url base_url href links st target r st' Hh Hj Hs _ IH Hb v Hv.
    erewrite targets_external by done.
    destruct (IH Hb v Hv) as [?|?]; [left; by fields|by right].
  - (* an internal link *)
    intros url base_url href links st target st1 r st' Hh Hj Hs _ IH1 _ IH2 Hb v Hv.
    erewrite targets_internal by done.
    destruct (IH2 Hb v Hv) as [Hv1|(t & Ht & Hr)].
    2:{ right. exists t. split; [|done]. apply elem_of_cons. by right. }
    rewrite or_else_truthy in IH1 by done.
    destruct (IH1 Hb v Hv1) as [?|Hr].
    + left. by fields.
    + right. exists target. split; [|done]. apply elem_of_cons. by left.
Qed.

(** Every link followed from a URL that a call added leads to a URL that
    is visited when the call returns. *)
Lemma crawl_closed_mutual :
  (∀ url base_url st st', Crawl url base_url st st' →
     truthy (or_else base_url url) = true →
     ∀ u, u ∈ visited st' → u ∉ visited st →
     ∀ v, follows (or_else base_url url) u v → v ∈ visited st') ∧
  (∀ url base_url links st r st', Links url base_url links st r st' →
     truthy (or_else base_url url) = true →
     (∀ t, t ∈ targets (or_else base_url url) links → t ∈ visited st') ∧
     (∀ u, u ∈ visited st' → u ∉ visited st →
      ∀ v, follows (or_else base_url url) u v → v ∈ visited st')).
Proof.
  apply Crawl_mutind.
  - intros url base_url st Hin _ u Hu Hn. by fields.
  - (* the fetch or the parse raised *)
    intros url base_url st e Hn Hp _ u Hu Hnu v Hf. fields.
    apply elem_of_union in Hu as [->%elem_of_singleton|?]; [|done].
    apply follows_targets in Hf as (? & ? & ?). congruence.
  - (* the page was indexed *)
    intros url base_url st soup r st' Hn Hp _ IH Hb u Hu Hnu v Hf. fields.
    destruct (IH Hb) as [Ht Hc].
    destruct (decide (u = url)) as [->|Hne].
    + apply follows_targets in Hf as (soup' & Hs' & Hv).
      apply Ht. congruence.
    + eapply Hc; [done| |done]. fields. set_solver.
  - intros url base_url st _. split; [by intros ? ?%elem_of_nil|done].
  - intros url base_url links st r st' _ IH. exact IH.
  - intros url base_url href links st r st' Hh _ IH Hb.
    rewrite targets_empty_href by done. auto.
  - intros url base_url href links st e Hh Hj _.
    erewrite targets_raise by done. split; [by intros ? ?%elem_of_nil|done].
  - intros url base_url href links st target r st' Hh Hj Hs _ IH Hb.
    erewrite targets_external by done.
    destruct (IH Hb) as [Ht Hc]. split; [done|].
    intros u Hu Hnu. apply Hc; [done|by fields].
  - (* an internal link *)
    intros url base_url href links st target st1 r st' Hh Hj Hs Hc IH1 Hl IH2 Hb.
    erewrite targets_internal by done.
    pose proof (Crawl_mono _ _ _ _ Hc) as Hm1.
    pose proof (Crawl_self _ _ _ _ Hc) as Hself.
    pose proof (Links_mono _ _ _ _ _ _ Hl) as Hm2.
    destruct (IH2 Hb) as [Ht Hcl].
    rewrite or_else_truthy in IH1 by done. specialize (IH1 Hb).
    fields. split.
    + intros t [->|?]%elem_of_cons; [set_solver|auto].
    + intros u Hu Hn v Hf. destruct (decide (u ∈ visited st1)); [|eauto].
      apply Hm2. eapply IH1; [done|by fields|done].
Qed.

(** After [crawl(seed)] on a fresh object, the visited set is the set of
    URLs reached from the seed along followed links. *)
Lemma crawl_visited_reach fuel seed st' :
  truthy seed = true →
  crawl fuel seed None init = Some (Ok tt, st') →
  ∀ u, u ∈ visited st' ↔ rtc (follows seed) seed u.
Proof.
  intros Hseed [_ Hc]%crawl_sound u. split.
  - intros Hu. destruct (proj1 crawl_reach_mutual _ _ _ _ Hc Hseed u Hu) as [?|?];
      [set_solver|done].
  - revert u. apply (rtc_ind_r (λ u, u ∈ visited st')).
    + by eapply Crawl_self.
    + intros v w _ Hf Hv.
      eapply (proj1 crawl_closed_mutual _ _ _ _ Hc Hseed); [done|set_solver|done].
Qed.

End Reach.

(** ** Termination *)

Section Termination.
Context `{Collaborators}.

(** On a site where the calls that [crawl(url, base_url)] may lead to
    touch only the URLs of a finite set [U], fuel above the number of
    URLs of [U] not yet visited is enough for the call to return. *)
Lemma crawl_terminates (U : gset string) fuel url base_url st :
  (∀ c, rtc calls (url, base_url) c → c.1 ∈ U) →
  size (U ∖ visited st) < fuel →
  ∃ st', crawl fuel url base_url st = Some (Ok tt, st').
Proof.
  revert url base_url st.
  induction fuel as [|fuel IH]; intros url base_url st HU Hsize; [lia|].
  rewrite crawl_unfold. case_decide as Hseen; [eauto|].
  destruct (fetch_page url) as [soup|e] eqn:Hpage; [|eauto].
  assert (url ∈ U) as HurlU by apply (HU (url, base_url)), rtc_refl.
  assert (size (U ∖ visited (indexed url soup st)) < fuel) as Hsize'.
  { fields. assert (U ∖ ({[url]} ∪ visited st) ⊂ U ∖ visited st) as Hsub%subset_size
      by set_solver. lia. }
  assert (∀ link, link ∈ find_all_a soup → link ∈ find_all_a soup) as Hsuffix by done.
  revert Hsize' Hsuffix.
  generalize (indexed url soup st). generalize (find_all_a soup) at 1 3.
  intros links. induction links as [|link links IHl]; intros st0 Hsize0 Hsuffix.
  { simpl. unfold ret. eauto. }
  assert (∀ st1, visited st0 ⊆ visited st1 →
    ∃ st', match for_each links (crawl_link (crawl fuel) url base_url) st1 with
           | Some (r, st2) => Some (Ok tt, finished url r st2)
           | None => None
           end = Some (Ok tt, st')) as Hrest.
  { intros st1 Hmono. apply IHl; [|set_solver].
    assert (U ∖ visited st1 ⊆ U ∖ visited st0) as Hsub%subseteq_size by set_solver.
    lia. }
  rewrite for_each_cons, crawl_link_unfold.
  destruct link as [href|]; [|by apply Hrest].
  destruct (truthy href) eqn:Hhref; [|by apply Hrest].
  destruct (urljoin _ href) as [target|e] eqn:Hjoin; [|eauto].
  destruct (startswith target _) eqn:Hscope; [|by apply Hrest].
  destruct (IH target (Some (or_else base_url url))
              (emit (Log DEBUG (msg_internal target)) st0))
    as [st1 Hcall]; [|by fields|].
  { intros c Hc. apply HU. eapply rtc_l; [|done]. split; [|done].
    exists soup, href. split_and!; try done. apply Hsuffix. set_solver. }
  rewrite Hcall. apply Hrest.
  apply crawl_sound in Hcall as [_ Hcall%Crawl_mono]. by fields.
Qed.

(** More fuel does not change what a call returns. *)
Lemma crawl_fuel_mono fuel fuel' url base_url st r st' :
  crawl fuel url base_url st = Some (r, st') → (fuel ≤ fuel')%nat →
  crawl fuel' url base_url st = Some (r, st').
Proof.
  revert fuel' url base_url st r st'.
  induction fuel as [|fuel IH]; intros fuel' url base_url st r st'; [done|].
  intros Hrun Hle. destruct fuel' as [|fuel']; [lia|].
  rewrite crawl_unfold in *. case_decide; [done|].
  destruct (fetch_page url) as [soup|e]; [|done].
  destruct (for_each _ (crawl_link (crawl fuel) _ _) _) as [[r1 st1]|] eqn:Hloop;
    [|done].
  enough (for_each (find_all_a soup) (crawl_link (crawl fuel') url base_url)
            (indexed url soup st) = Some (r1, st1)) as -> by done.
  revert Hloop. generalize (indexed url soup st). generalize (find_all_a soup).
  intros links. induction links as [|link links IHl]; intros st0; [done|].
  rewrite !for_each_cons, !crawl_link_unfold.
  destruct link as [href|]; [|by apply IHl].
  destruct (truthy href); [|by apply IHl].
  destruct (urljoin _ href) as [target|e]; [|done].
  destruct (startswith target _); [|by apply IHl].
  destruct (crawl fuel _ _ _) as [[r2 st2]|] eqn:Hcall; [|done].
  erewrite IH; [|done|lia]. destruct r2; [by apply IHl|done].
Qed.

End Termination.


(** ** Search *)

Lemma search_loop_spec keyword (d : dict) (results : list string) :
  foldl (λ results '(url, txt),
           if str_in (lower keyword) (lower txt) then results ++ [url]
           else results) results d =
  results ++ (filter (λ entry : string * string, str_in (lower keyword) (lower entry.2) = true) d).*1.
Proof.
  revert results. induction d as [|[url txt] d IH]; intros results; simpl.
  - by rewrite app_nil_r.
  - rewrite IH. rewrite filter_cons. simpl.
    destruct (str_in (lower keyword) (lower txt)) eqn:Hin.
    + rewrite decide_True by done. simpl. by rewrite <- app_assoc.
    + rewrite decide_False by (by intros ?). done.
Qed.

(** C5: [search(keyword)] returns exactly the URLs whose lowercased text
    contains the lowercased keyword as a substring, in the order of the
    index; the empty keyword returns every indexed URL, and an empty index
    gives the empty list. *)
Theorem search_returns_matching_urls_in_order :
  (∀ st keyword, search st keyword = search_spec st keyword) ∧
  (∀ st keyword url,
     url ∈ search st keyword ↔
     ∃ txt a b, (url, txt) ∈ index st ∧ lower txt = a +:+ lower keyword +:+ b) ∧
  (∀ st, search st "" = keys (index st)) ∧
  (∀ keyword, search init keyword = []) ∧
  (∀ (d : dict) url txt, url ∉ keys d → setitem d url txt = d ++ [(url, txt)]).
Proof.
  assert (∀ st keyword, search st keyword = search_spec st keyword) as Hspec.
  { intros st keyword. unfold search, search_spec.
    by rewrite search_loop_spec. }
  split_and!.
  - done.
  - intros st keyword url. rewrite Hspec. unfold search_spec.
    rewrite list_elem_of_fmap. split.
    + intros ([u txt] & -> & [Hin Hentry]%list_elem_of_filter). simpl in *.
      apply str_in_spec in Hin as (a & b & Hab). by exists txt, a, b.
    + intros (txt & a & b & Hentry & Hab). exists (url, txt). split; [done|].
      apply list_elem_of_filter. split; [|done]. simpl.
      apply str_in_spec. by exists a, b.
  - intros st. rewrite Hspec. unfold search_spec, keys. f_equal.
    induction (index st) as [|entry d IH]; [done|].
    rewrite filter_cons, decide_True by apply str_in_nil. by f_equal.
  - done.
  - intros d url txt Hfresh. by apply setitem_fresh.
Qed.

(** The case-insensitive scenario: text [KEYWORD here], query [keyword]. *)
Example search_case_insensitive :
  search {| index := [("u", "KEYWORD here")]; visited := {["u"]}; events := [] |}
    "keyword" = ["u"].
Proof. reflexivity. Qed.

(** ** Failures, scope and the index *)

Section Claims.
Context `{Collaborators}.

(** C2: a URL has an entry in the index exactly when it was visited and
    its fetch and parse succeeded. When the fetch or the parse of an
    unvisited URL raises, the call returns with the URL marked visited,
    the index as it was, and no request but the one for this URL. *)
Theorem index_iff_fetched_and_parsed :
  (∀ fuel url base_url st st',
     (∀ u, u ∈ keys (index st) ↔ u ∈ visited st ∧ parsed u) →
     crawl fuel url base_url st = Some (Ok tt, st') →
     ∀ u, u ∈ keys (index st') ↔ u ∈ visited st' ∧ parsed u) ∧
  (∀ fuel url base_url st e,
     url ∉ visited st → fetch_page url = Raise e →
     ∃ st', crawl (S fuel) url base_url st = Some (Ok tt, st') ∧
            index st' = index st ∧
            visited st' = {[url]} ∪ visited st ∧
            events st' = events st ++
              [Log INFO (msg_crawling url); Add url; Get url;
               Log ERROR (msg_error url e)]).
Proof.
  split.
  - intros fuel url base_url st st' Hinv [_ Hc]%crawl_sound u.
    pose proof (Crawl_mono _ _ _ _ Hc) as Hm.
    rewrite (proj1 crawl_keys_mutual _ _ _ _ Hc), Hinv. split.
    + intros [[? ?]|(? & ? & ?)]; split; auto.
    + intros [? ?]. destruct (decide (u ∈ visited st)); [left|right]; done.
  - intros fuel url base_url st e Hn Hp. eexists. split.
    + rewrite crawl_unfold, decide_False, Hp by done. done.
    + split_and!; [done..|]. simpl. by rewrite <- !app_assoc.
Qed.

(** C6: a URL that does not start with the scope prefix of [crawl(seed)]
    is added neither to the visited set nor to the index. *)
Theorem external_urls_never_added fuel seed st st' v :
  startswith v seed = false →
  crawl fuel seed None st = Some (Ok tt, st') →
  (v ∈ visited st' → v ∈ visited st) ∧
  (v ∈ keys (index st') → v ∈ keys (index st)).
Proof.
  intros Hv [_ Hc]%crawl_sound.
  assert (v ∈ visited st' → v ∈ visited st) as Hvis.
  { intros Hin. destruct (Crawl_scope _ _ _ _ _ Hc Hin) as [?|[->|Hs]]; [done|..].
    - by rewrite startswith_refl in Hv.
    - simpl in Hs. congruence. }
  split; [done|].
  intros [?|(? & ? & _)]%(proj1 crawl_keys_mutual _ _ _ _ Hc); [done|].
  exfalso. auto.
Qed.

(** C8: the scope test is the prefix test on strings. A page with one
    link, resolved to a URL not seen before, gets that URL visited exactly
    when the URL is the scope prefix followed by some string. *)
Theorem in_scope_iff_string_prefix fuel url base_url st st' soup href target :
  url ∉ visited st → target ∉ visited st → target ≠ url →
  fetch_page url = Ok soup → find_all_a soup = [Some href] →
  truthy href = true → urljoin (or_else base_url url) href = Ok target →
  crawl fuel url base_url st = Some (Ok tt, st') →
  (startswith target (or_else base_url url) = true ↔
   ∃ rest, target = or_else base_url url +:+ rest) ∧
  (target ∈ visited st' ↔ ∃ rest, target = or_else base_url url +:+ rest).
Proof.
  intros Hn Hnt Hne Hp Hlinks Hh Hj [_ Hc]%crawl_sound.
  split; [apply startswith_spec|]. rewrite <- startswith_spec.
  inversion Hc as [| |????? st1 ? Hp' Hl]; subst; [done|congruence|].
  assert (soup0 = soup) as -> by congruence. rewrite Hlinks in Hl. fields.
  inversion Hl as [| | | |??????? st2 ? Hj' Hs Hl'|???????? st2 ? Hj' Hs Hc' Hl'];
    subst; try congruence.
  - (* judged external *)
    assert (target0 = target) as -> by congruence.
    inversion Hl'; subst. fields. rewrite Hs. split; [|done].
    intros [->%elem_of_singleton|?]%elem_of_union; done.
  - (* judged internal *)
    assert (target0 = target) as -> by congruence.
    inversion Hl'; subst. split; [done|]. intros _. by eapply Crawl_self.
Qed.

(** C10: the scope filter does not apply to the argument of [crawl]. A
    call on an unvisited URL outside the given base marks it visited,
    requests it, and indexes its text when fetch and parse succeed; the
    URLs it adds besides are those that start with the base. *)
Theorem crawl_argument_is_not_filtered fuel url base st st' :
  url ∉ visited st → startswith url base = false →
  crawl fuel url (Some base) st = Some (Ok tt, st') →
  url ∈ visited st' ∧
  Get url ∈ events st' ∧
  (∀ soup, fetch_page url = Ok soup →
     getitem (index st') url = Some (get_text soup)) ∧
  (∀ v, v ∈ visited st' → v ∈ visited st ∨ v = url ∨ startswith v base = true).
Proof.
  intros Hn Hs [_ Hc]%crawl_sound.
  assert (truthy base = true) as Hb.
  { destruct base; [by rewrite startswith_nil in Hs|done]. }
  split_and!.
  - by eapply Crawl_self.
  - inversion Hc as [|???? _ Hp|?????? _ Hp Hl]; subst; [done|..].
    + unfold handled. simpl. set_solver.
    + apply (proj2 crawl_extends_mutual) in Hl as (evs & He & _).
      assert (Get url ∈ events st'0) by (rewrite He; simpl; set_solver).
      destruct r; simpl; set_solver.
  - intros soup Hp. by eapply Crawl_indexed.
  - intros v Hv. destruct (Crawl_scope _ _ _ _ _ Hc Hv) as [?|[?|Hsv]]; auto.
    rewrite or_else_truthy in Hsv by done. auto.
Qed.

End Claims.

(** ** What a trace says about the fields *)

Section TraceFacts.
Context `{Collaborators}.

Lemma elem_of_added url evs : url ∈ added evs ↔ Add url ∈ evs.
Proof.
  unfold added. rewrite list_elem_of_omap. split.
  - intros ([] & Hin & [= ->]). done.
  - intros Hin. by exists (Add url).
Qed.

Lemma elem_of_fetched url evs : url ∈ fetched evs ↔ Get url ∈ evs.
Proof.
  unfold fetched. rewrite list_elem_of_omap. split.
  - intros ([] & Hin & [= ->]). done.
  - intros Hin. by exists (Get url).
Qed.

Lemma replay_visited σ evs :
  (replay σ evs).1 = list_to_set (added evs) ∪ σ.1.
Proof.
  revert σ. induction evs as [|e evs IH]; intros σ; simpl.
  - set_solver.
  - unfold replay in *. simpl. rewrite IH. destruct e; simpl; set_solver.
Qed.

Lemma trace_ok_added σ evs :
  trace_ok σ evs → NoDup (added evs) ∧ ∀ url, url ∈ added evs → url ∉ σ.1.
Proof.
  revert σ. induction evs as [|e evs IH]; intros σ; simpl.
  - intros _. split; [constructor|set_solver].
  - intros [He [Hnd Hfresh]%IH]. destruct e; simpl in *; try done.
    split.
    + constructor; [|done]. intros Hin%Hfresh. set_solver.
    + intros u [->|Hin]%elem_of_cons; [done|].
      apply Hfresh in Hin. set_solver.
Qed.

Lemma trace_ok_index_within_visited σ evs :
  index_within_visited σ → trace_ok σ evs →
  index_within_visited (replay σ evs).
Proof.
  revert σ. induction evs as [|e evs IH]; intros σ Hinv; simpl; [done|].
  intros [He Hok]. apply IH; [|done]. unfold index_within_visited in *.
  destruct e; simpl in *; try done.
  - intros u Hu. apply elem_of_union. right. auto.
  - intros u [->|Hu]%elem_of_keys_setitem; [by destruct He|auto].
Qed.

(** Whoever is in the visited set of a fresh object after some calls was
    added once and requested once. *)
Lemma extends_init st :
  extends init st →
  NoDup (added (events st)) ∧ fetched (events st) = added (events st) ∧
  ∀ url, url ∈ visited st ↔ url ∈ added (events st).
Proof.
  intros (evs & He & Hf & Hok & Hg). simpl in He. subst evs.
  apply trace_ok_added in Hok as [Hnd _]. split_and!; [done..|].
  intros url. change (visited st) with (fields st).1.
  rewrite Hf, replay_visited. set_solver.
Qed.

End TraceFacts.

(** ** Traversal *)

Lemma append_truthy_ne s t : truthy t = true → s +:+ t ≠ s.
Proof.
  intros Ht. induction s as [|c s IH].
  - change ("" +:+ t) with t. by intros ->.
  - change (String c s +:+ t) with (String c (s +:+ t)). by intros [= ?].
Qed.

Section Traversal.
Context `{Collaborators}.


(** C3: no call of [crawl] ends with an exception; and on a site where
    the calls it may lead to touch finitely many URLs, the call returns,
    with fuel above the number of those URLs not yet visited. *)
Theorem crawl_returns_normally url base_url st :
  (∀ fuel r st', crawl fuel url base_url st = Some (r, st') → r = Ok tt) ∧
  (∀ (U : gset string) fuel,
     (∀ c, rtc calls (url, base_url) c → c.1 ∈ U) →
     size (U ∖ visited st) < fuel →
     ∃ st', crawl fuel url base_url st = Some (Ok tt, st')).
Proof.
  split.
  - intros fuel r st' Hrun. by apply crawl_sound in Hrun as [-> _].
  - intros U fuel HU Hsize. by eapply crawl_terminates.
Qed.

(** C4: a call on a visited URL requests nothing and leaves the visited
    set and the index as they are; so a second [crawl(seed)] changes
    neither and requests nothing; and over both calls on a fresh object
    every visited URL was added once and requested once. *)
Theorem crawl_is_idempotent :
  (∀ fuel url base_url st,
     url ∈ visited st →
     ∃ st', crawl (S fuel) url base_url st = Some (Ok tt, st') ∧
            visited st' = visited st ∧ index st' = index st ∧
            events st' = events st ++ [Log DEBUG (msg_seen url)]) ∧
  (∀ fuel fuel' seed base_url st st1,
     crawl fuel seed base_url st = Some (Ok tt, st1) →
     ∃ st2, crawl (S fuel') seed base_url st1 = Some (Ok tt, st2) ∧
            visited st2 = visited st1 ∧ index st2 = index st1 ∧
            fetched (events st2) = fetched (events st1) ∧
            added (events st2) = added (events st1)) ∧
  (∀ fuel fuel' seed base_url st1 st2,
     crawl fuel seed base_url init = Some (Ok tt, st1) →
     crawl fuel' seed base_url st1 = Some (Ok tt, st2) →
     NoDup (added (events st2)) ∧
     fetched (events st2) = added (events st2) ∧
     ∀ url, url ∈ visited st2 ↔ url ∈ added (events st2)).
Proof.
  assert (∀ fuel url base_url st, url ∈ visited st →
            crawl (S fuel) url base_url st =
            Some (Ok tt, emit (Log DEBUG (msg_seen url)) st)) as Hseen.
  { intros fuel url base_url st Hin. by rewrite crawl_unfold, decide_True. }
  split_and!.
  - intros fuel url base_url st Hin. eexists. split; [by apply Hseen|done].
  - intros fuel fuel' seed base_url st st1 [_ Hc%Crawl_self]%crawl_sound.
    eexists. split; [by apply Hseen|]. split_and!; [done..| |]; simpl.
    + unfold fetched. by rewrite omap_app, app_nil_r.
    + unfold added. by rewrite omap_app, app_nil_r.
  - intros fuel fuel' seed base_url st1 st2 [_ Hc1]%crawl_sound [_ Hc2]%crawl_sound.
    apply extends_init.
    eapply extends_trans; [exact (proj1 crawl_extends_mutual _ _ _ _ Hc1)|].
    exact (proj1 crawl_extends_mutual _ _ _ _ Hc2).
Qed.

(** C9: the keys of the index are visited URLs at every point of a call:
    if this holds when [crawl] is called, it holds after every prefix of
    the events of the call, the whole of them included; and a URL is
    requested or indexed only when it is in the visited set. *)
Theorem index_within_visited_at_every_point fuel url base_url st st' :
  index_within_visited (fields st) →
  crawl fuel url base_url st = Some (Ok tt, st') →
  ∃ evs,
    events st' = events st ++ evs ∧
    fields st' = replay (fields st) evs ∧
    (∀ evs1 evs2, evs = evs1 ++ evs2 →
       index_within_visited (replay (fields st) evs1)) ∧
    (∀ evs1 e evs2, evs = evs1 ++ e :: evs2 →
       ∀ u, e = Get u ∨ (∃ txt, e = SetItem u txt) →
       u ∈ (replay (fields st) evs1).1).
Proof.
  intros Hinv [_ Hc]%crawl_sound.
  apply (proj1 crawl_extends_mutual) in Hc as (evs & He & Hf & Hok & _).
  exists evs. split_and!; [done..| |].
  - intros evs1 evs2 ->. apply trace_ok_app in Hok as [Hok1 _].
    by apply trace_ok_index_within_visited.
  - intros evs1 e evs2 -> u Hu. apply trace_ok_app in Hok as [_ [He' _]].
    destruct Hu as [->|[txt ->]]; simpl in He'; [done|by destruct He'].
Qed.

(** C7: a fragment href on a visited page, resolved to the scope prefix
    followed by the fragment, is in scope, and its URL, which is not the
    bare prefix, is visited and requested as well as the seed. On a seed
    page [https://example.com] with the links [/about],
    [https://external.com] and [/about#frag], resolved as [urljoin] does,
    the first and the third are visited and the second is not. *)
Theorem fragment_links_are_crawled :
  (∀ fuel seed st' page soup pre frag post,
     truthy seed = true →
     crawl fuel seed None init = Some (Ok tt, st') →
     page ∈ visited st' → fetch_page page = Ok soup →
     find_all_a soup = pre ++ Some ("#" +:+ frag) :: post →
     Forall (resolves seed) pre →
     urljoin seed ("#" +:+ frag) = Ok (seed +:+ "#" +:+ frag) →
     startswith (seed +:+ "#" +:+ frag) seed = true ∧
     seed +:+ "#" +:+ frag ≠ seed ∧
     seed +:+ "#" +:+ frag ∈ visited st' ∧
     Get (seed +:+ "#" +:+ frag) ∈ events st' ∧
     seed ∈ visited st' ∧ Get seed ∈ events st') ∧
  (∀ fuel st' soup,
     let seed := "https://example.com" in
     fetch_page seed = Ok soup →
     find_all_a soup =
       [Some "/about"; Some "https://external.com"; Some "/about#frag"] →
     urljoin seed "/about" = Ok "https://example.com/about" →
     urljoin seed "https://external.com" = Ok "https://external.com" →
     urljoin seed "/about#frag" = Ok "https://example.com/about#frag" →
     crawl fuel seed None init = Some (Ok tt, st') →
     "https://example.com" ∈ visited st' ∧
     "https://example.com/about" ∈ visited st' ∧
     "https://example.com/about#frag" ∈ visited st' ∧
     "https://external.com" ∉ visited st').
Proof.
  assert (∀ fuel seed st' u, crawl fuel seed None init = Some (Ok tt, st') →
            u ∈ visited st' → Get u ∈ events st') as Hget.
  { intros fuel seed st' u [_ Hc]%crawl_sound Hu.
    apply (proj1 crawl_extends_mutual), extends_init in Hc as (_ & Hg & Hv).
    apply elem_of_fetched. rewrite Hg. by apply Hv. }
  split.
  - intros fuel seed st' page soup pre frag post Hseed Hrun Hpage Hp Hl Hpre Hj.
    pose proof (crawl_visited_reach _ _ _ Hseed Hrun) as Hreach.
    assert (seed +:+ "#" +:+ frag ∈ visited st') as Hfrag.
    { apply Hreach. eapply rtc_r; [by apply Hreach|].
      exists soup, pre, ("#" +:+ frag), post. split_and!; try done.
      apply startswith_app. }
    assert (seed ∈ visited st') as Hs by apply Hreach, rtc_refl.
    split_and!; eauto using startswith_app.
    by apply append_truthy_ne.
  - intros fuel st' soup seed Hp Hl Hj1 Hj2 Hj3 Hrun.
    pose proof (crawl_visited_reach fuel seed st' eq_refl Hrun) as Hreach.
    split_and!.
    + apply Hreach, rtc_refl.
    + apply Hreach, rtc_once.
      exists soup, [], "/about",
        [Some "https://external.com"; Some "/about#frag"].
      by rewrite Hl.
    + apply Hreach, rtc_once.
      exists soup, [Some "/about"; Some "https://external.com"], "/about#frag", [].
      rewrite Hl. split_and!; try done.
      repeat constructor; simpl; eauto.
    + intros Hin. apply crawl_sound in Hrun as [_ Hc].
      destruct (Crawl_scope _ _ _ _ _ Hc Hin) as [?|[?|?]]; [set_solver|done..].
Qed.

End Traversal.

(** ** The properties on concrete sites *)



Lemma index_iff_fetched_and_parsed_witness :
  let seed := "https://example.com" in
  (let st' := ended (crawl (H:=chain_site) 4 seed None init) in
   ∀ u, u ∈ keys (index st') ↔ u ∈ visited st' ∧ parsed (H:=chain_site) u) ∧
  (∃ st', crawl (H:=offline_site) 1 seed None init = Some (Ok tt, st') ∧
          index st' = [] ∧ visited st' = {[seed]} ∪ ∅ ∧
          events st' =
            [Log INFO (msg_crawling seed); Add seed; Get seed;
             Log ERROR (msg_error seed (RequestException "Network Error"))]).
Proof.
  intros seed. split.
  - apply (proj1 (index_iff_fetched_and_parsed (H:=chain_site)) 4 seed None init).
    + intros u. simpl. split; [by intros ?%elem_of_nil|set_solver].
    + vm_compute; reflexivity.
  - apply (proj2 (index_iff_fetched_and_parsed (H:=offline_site)) 0 seed None init
             (RequestException "Network Error")).
    + set_solver.
    + reflexivity.
Defined.

Lemma chain_site_calls c :
  rtc (calls (H:=chain_site)) ("https://example.com", None) c →
  c.1 ∈ ({["https://example.com"; "https://example.com/b";
           "https://example.com/c"]} : gset string).
Proof.
  intros Hc.
  enough (c.1 ∈ ({["https://example.com"; "https://example.com/b";
                   "https://example.com/c"]} : gset string) ∧
          or_else c.2 c.1 = "https://example.com") as [? _] by done.
  revert c Hc.
  apply (rtc_ind_r (λ c : string * option string,
           c.1 ∈ ({["https://example.com"; "https://example.com/b";
                    "https://example.com/c"]} : gset string) ∧
           or_else c.2 c.1 = "https://example.com")).
  - split; [set_solver|done].
  - intros c c' _ [Hlink Hbase] [Hin Hscope].
    rewrite Hscope in Hlink, Hbase.
    destruct Hlink as (soup & href & Hp & Hhref & _ & Hj & _).
    assert (c'.1 ∈ ({["https://example.com"; "https://example.com/b";
                      "https://example.com/c"]} : gset string)) as Hin'.
    { apply elem_of_union in Hin as [[Hc1|Hc1]%elem_of_union|Hc1];
        apply elem_of_singleton in Hc1; rewrite Hc1 in Hp;
        vm_compute in Hp; simplify_eq; simpl in Hhref;
        apply list_elem_of_singleton in Hhref; simplify_eq;
        vm_compute in Hj; simplify_eq; set_solver. }
    split; [done|]. by rewrite Hbase.
Qed.

Lemma crawl_returns_normally_witness :
  let seed := "https://example.com" in
  let U : gset string :=
    {["https://example.com"; "https://example.com/b"; "https://example.com/c"]} in
  (∀ c, rtc (calls (H:=chain_site)) (seed, None) c → c.1 ∈ U) ∧
  size (U ∖ visited init) < 4 ∧
  ∃ st', crawl (H:=chain_site) 4 seed None init = Some (Ok tt, st').
Proof.
  intros seed U. split; [apply chain_site_calls|]. split; [vm_compute; lia|].
  apply (proj2 (crawl_returns_normally (H:=chain_site) seed None init) U 4).
  - apply chain_site_calls.
  - vm_compute; lia.
Defined.

Lemma crawl_is_idempotent_witness :
  let seed := "https://example.com" in
  let st1 := ended (crawl (H:=chain_site) 4 seed None init) in
  seed ∈ visited st1 ∧
  crawl (H:=chain_site) 4 seed None init = Some (Ok tt, st1) ∧
  (∃ st', crawl (H:=chain_site) 1 seed None st1 = Some (Ok tt, st') ∧
          visited st' = visited st1 ∧ index st' = index st1 ∧
          events st' = events st1 ++ [Log DEBUG (msg_seen seed)]) ∧
  (∃ st2, crawl (H:=chain_site) 1 seed None st1 = Some (Ok tt, st2) ∧
          visited st2 = visited st1 ∧ index st2 = index st1 ∧
          fetched (events st2) = fetched (events st1) ∧
          added (events st2) = added (events st1)).
Proof.
  intros seed st1.
  assert (seed ∈ visited st1) as Hin
    by (apply (bool_decide_unpack _); vm_compute; exact I).
  assert (crawl (H:=chain_site) 4 seed None init = Some (Ok tt, st1)) as Hrun
    by (vm_compute; reflexivity).
  split; [done|]. split; [done|]. split.
  - exact (proj1 (crawl_is_idempotent (H:=chain_site)) 0 seed None st1 Hin).
  - exact (proj1 (proj2 (crawl_is_idempotent (H:=chain_site)))
             4 0 seed None init st1 Hrun).
Defined.

Lemma search_returns_matching_urls_in_order_witness :
  "u" ∉ keys [("v", "no match")] ∧
  setitem [("v", "no match")] "u" "KEYWORD here" =
    [("v", "no match")] ++ [("u", "KEYWORD here")].
Proof.
  assert ("u" ∉ keys [("v", "no match")]) as Hfresh.
  { intros [[=]|[]%elem_of_nil]%elem_of_cons. }
  split; [done|].
  exact (proj2 (proj2 (proj2 (proj2 search_returns_matching_urls_in_order)))
           [("v", "no match")] "u" "KEYWORD here" Hfresh).
Defined.

Lemma external_urls_never_added_witness :
  let seed := "https://example.com" in
  let st' := ended (crawl (H:=about_site) 3 seed None init) in
  startswith "https://external.com" seed = false ∧
  crawl (H:=about_site) 3 seed None init = Some (Ok tt, st') ∧
  ("https://external.com" ∈ visited st' → "https://external.com" ∈ visited init) ∧
  ("https://external.com" ∈ keys (index st') →
   "https://external.com" ∈ keys (index init)).
Proof.
  intros seed st'. split; [reflexivity|]. split; [vm_compute; reflexivity|].
  apply (external_urls_never_added (H:=about_site) 3 seed init st');
    [reflexivity|vm_compute; reflexivity].
Defined.

Lemma fragment_links_are_crawled_witness :
  let seed := "https://example.com" in
  (let st' := ended (crawl (H:=welcome_site) 3 seed None init) in
   startswith (seed +:+ "#" +:+ "section") seed = true ∧
   seed +:+ "#" +:+ "section" ≠ seed ∧
   seed +:+ "#" +:+ "section" ∈ visited st' ∧
   Get (seed +:+ "#" +:+ "section") ∈ events st' ∧
   seed ∈ visited st' ∧ Get seed ∈ events st') ∧
  (let st' := ended (crawl (H:=about_site) 3 seed None init) in
   "https://example.com" ∈ visited st' ∧
   "https://example.com/about" ∈ visited st' ∧
   "https://example.com/about#frag" ∈ visited st' ∧
   "https://external.com" ∉ visited st').
Proof.
  intros seed. split.
  - apply (proj1 (fragment_links_are_crawled (H:=welcome_site)) 3 seed _ seed
             {| get_text := "Welcome! About Us External Link Contact Section Link";
                find_all_a := [Some "/about"; Some "https://www.external.com";
                               Some "/contact"; None; Some "#section"] |}
             [Some "/about"; Some "https://www.external.com"; Some "/contact"; None]
             "section" []).
    + reflexivity.
    + vm_compute; reflexivity.
    + apply (bool_decide_unpack _); vm_compute; exact I.
    + reflexivity.
    + reflexivity.
    + repeat constructor; simpl; eauto.
    + reflexivity.
  - apply (proj2 (fragment_links_are_crawled (H:=about_site)) 3 _
             {| get_text := "Welcome!";
                find_all_a := [Some "/about"; Some "https://external.com";
                               Some "/about#frag"] |});
      [reflexivity..|vm_compute; reflexivity].
Defined.

Lemma in_scope_iff_string_prefix_witness :
  let seed := "https://example.com" in
  let evil := "https://example.com.evil.com" in
  let st' := ended (crawl (H:=evil_site) 2 seed None init) in
  crawl (H:=evil_site) 2 seed None init = Some (Ok tt, st') ∧
  (startswith evil seed = true ↔ ∃ rest, evil = seed +:+ rest) ∧
  (evil ∈ visited st' ↔ ∃ rest, evil = seed +:+ rest).
Proof.
  intros seed evil st'. split; [vm_compute; reflexivity|].
  apply (in_scope_iff_string_prefix (H:=evil_site) 2 seed None init st'
           {| get_text := "Welcome!"; find_all_a := [Some evil] |} evil evil).
  - set_solver.
  - set_solver.
  - done.
  - reflexivity.
  - reflexivity.
  - reflexivity.
  - reflexivity.
  - vm_compute; reflexivity.
Defined.

(** The URL whose host extends the seed is visited. *)
Example evil_host_is_in_scope :
  startswith "https://example.com.evil.com" "https://example.com" = true ∧
  "https://example.com.evil.com" ∈
    visited (ended (crawl (H:=evil_site) 2 "https://example.com" None init)).
Proof.
  split; [reflexivity|]. apply (bool_decide_unpack _). vm_compute. exact I.
Qed.

Lemma index_within_visited_at_every_point_witness :
  let seed := "https://example.com" in
  let st' := ended (crawl (H:=chain_site) 4 seed None init) in
  index_within_visited (fields init) ∧
  crawl (H:=chain_site) 4 seed None init = Some (Ok tt, st') ∧
  ∃ evs,
    events st' = events init ++ evs ∧
    fields st' = replay (fields init) evs ∧
    (∀ evs1 evs2, evs = evs1 ++ evs2 →
       index_within_visited (replay (fields init) evs1)) ∧
    (∀ evs1 e evs2, evs = evs1 ++ e :: evs2 →
       ∀ u, e = Get u ∨ (∃ txt, e = SetItem u txt) →
       u ∈ (replay (fields init) evs1).1).
Proof.
  intros seed st'.
  assert (index_within_visited (fields init)) as Hinv
    by (by intros u ?%elem_of_nil).
  split; [done|]. split; [vm_compute; reflexivity|].
  apply (index_within_visited_at_every_point (H:=chain_site) 4 seed None init st');
    [done|vm_compute; reflexivity].
Defined.

Lemma crawl_argument_is_not_filtered_witness :
  let url := "https://blog.example.org" in
  let base := "https://example.com" in
  let st' := ended (crawl (H:=blog_site) 3 url (Some base) init) in
  url ∉ visited init ∧ startswith url base = false ∧
  crawl (H:=blog_site) 3 url (Some base) init = Some (Ok tt, st') ∧
  url ∈ visited st' ∧
  Get url ∈ events st' ∧
  (∀ soup, fetch_page (H:=blog_site) url = Ok soup →
     getitem (index st') url = Some (get_text soup)) ∧
  (∀ v, v ∈ visited st' → v ∈ visited init ∨ v = url ∨ startswith v base = true).
Proof.
  intros url base st'.
  assert (url ∉ visited init) as Hn by set_solver.
  split; [done|]. split; [reflexivity|]. split; [vm_compute; reflexivity|].
  apply (crawl_argument_is_not_filtered (H:=blog_site) 3 url base init st');
    [done|reflexivity|vm_compute; reflexivity].
Defined.

(** The page outside the base is indexed; of its two links, the one
    inside the base is followed and the one under the page itself is
    not. *)
Example blog_page_links_filtered_by_base :
  let st' := ended (crawl (H:=blog_site) 3 "https://blog.example.org"
                      (Some "https://example.com") init) in
  index st' = [("https://blog.example.org", "Blog");
               ("https://example.com/about", "About Us")] ∧
  fetched (events st') = ["https://blog.example.org"; "https://example.com/about"].
Proof. split; reflexivity. Qed.

(** * Further properties of the code *)

(** ** [print_results] *)

(** X1: [print_results] prints the one line [No results found.] exactly
    when there are no results; otherwise it prints the header and then one
    line per result, in order, each the result after a dash and a space. *)
Theorem print_results_lines (results : list string) :
  (print_results results = ["No results found."] ↔ results = []) ∧
  (results ≠ [] →
     length (print_results results) = S (length results) ∧
     print_results results !! 0 = Some "Search results:" ∧
     ∀ i, print_results results !! S i = (λ r, "- " +:+ r) <$> results !! i).
Proof.
  split.
  - split; [|by intros ->]. destruct results as [|r results]; [done|].
    simpl. intros [= ?].
  - intros Hne. destruct results as [|r results]; [done|].
    split_and!; [simpl; by rewrite length_map|done|].
    intros i. simpl. by rewrite <- list_lookup_fmap.
Qed.

Lemma print_results_lines_witness :
  ["page1"; "page2"] ≠ [] ∧
  length (print_results ["page1"; "page2"]) = 3 ∧
  print_results ["page1"; "page2"] !! 0 = Some "Search results:" ∧
  ∀ i, print_results ["page1"; "page2"] !! S i =
       (λ r, "- " +:+ r) <$> ["page1"; "page2"] !! i.
Proof.
  split; [done|].
  exact (proj2 (print_results_lines ["page1"; "page2"]) ltac:(done)).
Defined.

(** X2: nothing is lost in printing: different results are never printed
    as the same lines. *)
Theorem print_results_inj (results1 results2 : list string) :
  print_results results1 = print_results results2 → results1 = results2.
Proof.
  assert (∀ l1 l2 : list string,
            map (λ result, "- " +:+ result) l1 =
            map (λ result, "- " +:+ result) l2 → l1 = l2) as Hmap.
  { induction l1 as [|r1 l1 IH]; intros [|r2 l2]; simpl; try done.
    unfold String.append at 1 3. intros [= -> Hl]. f_equal. by apply IH. }
  destruct results1 as [|r1 l1], results2 as [|r2 l2]; try done.
  unfold print_results. intros Hl. apply Hmap.
  exact (f_equal (drop 1) Hl).
Qed.

Lemma print_results_inj_witness :
  print_results ["page1"; "page2"] = print_results ["page1"; "page2"] ∧
  ["page1"; "page2"] = ["page1"; "page2"].
Proof.
  split; [reflexivity|].
  exact (print_results_inj ["page1"; "page2"] ["page1"; "page2"] eq_refl).
Defined.

(** ** [search] *)

Lemma lower_char_idemp c : lower_char (lower_char c) = lower_char c.
Proof.
  destruct c as [b0 b1 b2 b3 b4 b5 b6 b7].
  destruct b0, b1, b2, b3, b4, b5, b6, b7; reflexivity.
Qed.

Lemma lower_idemp s : lower (lower s) = lower s.
Proof. induction s as [|c s IH]; simpl; [done|]. by rewrite lower_char_idemp, IH. Qed.



Lemma sublist_keys (d1 d2 : dict) : sublist d1 d2 → sublist (keys d1) (keys d2).
Proof.
  unfold keys. induction 1 as [|entry d1 d2 _ IH|entry d1 d2 _ IH]; simpl;
    [constructor|by apply sublist_skip|by apply sublist_cons].
Qed.

(** X3: [search] does not see the case of the keyword: two keywords with
    the same lowercase form give the same results, so a keyword and its
    lowercase form do. *)
Theorem search_ignores_keyword_case st :
  (∀ k1 k2, lower k1 = lower k2 → search st k1 = search st k2) ∧
  (∀ keyword, search st (lower keyword) = search st keyword).
Proof.
  assert (∀ k1 k2, lower k1 = lower k2 → search st k1 = search st k2) as Hsame.
  { intros k1 k2 Hk. unfold search. by rewrite Hk. }
  split; [done|]. intros keyword. apply Hsame, lower_idemp.
Qed.

Lemma search_ignores_keyword_case_witness :
  lower "KeyWord" = lower "keyword" ∧
  search {| index := [("u", "KEYWORD here")]; visited := ∅; events := [] |}
    "KeyWord" =
  search {| index := [("u", "KEYWORD here")]; visited := ∅; events := [] |}
    "keyword".
Proof.
  split; [reflexivity|].
  exact (proj1 (search_ignores_keyword_case _) "KeyWord" "keyword" eq_refl).
Defined.

Lemma search_eq_spec st keyword : search st keyword = search_spec st keyword.
Proof. unfold search, search_spec. by rewrite search_loop_spec. Qed.

Lemma elem_of_search st keyword url :
  url ∈ search st keyword ↔
  ∃ txt a b, (url, txt) ∈ index st ∧ lower txt = a +:+ lower keyword +:+ b.
Proof.
  rewrite search_eq_spec. unfold search_spec.
  rewrite list_elem_of_fmap. split.
  - intros ([u txt] & -> & [Hin Hentry]%list_elem_of_filter). simpl in *.
    apply str_in_spec in Hin as (a & b & Hab). by exists txt, a, b.
  - intros (txt & a & b & Hentry & Hab). exists (url, txt). split; [done|].
    apply list_elem_of_filter. split; [|done]. simpl.
    apply str_in_spec. by exists a, b.
Qed.


Lemma setitem_NoDup_keys (d : dict) url txt :
  NoDup (keys d) → NoDup (keys (setitem d url txt)).
Proof.
  unfold keys. induction d as [|[k v] d IH]; simpl.
  - intros _. repeat constructor. by intros ?%elem_of_nil.
  - intros [Hk Hnd]%NoDup_cons. case_decide as Heq; simpl.
    + subst. by apply NoDup_cons.
    + apply NoDup_cons. split; [|auto].
      change (setitem d url txt).*1 with (keys (setitem d url txt)).
      rewrite elem_of_keys_setitem. intros [?|?]; [congruence|done].
Qed.

(** X5: [search] returns keys of the index, and returns none of them
    twice when the index has none twice, which [setitem] guarantees. *)
Theorem search_results_are_distinct_keys st keyword :
  search st keyword ⊆ keys (index st) ∧
  (NoDup (keys (index st)) → NoDup (search st keyword)) ∧
  (∀ url txt, NoDup (keys (index st)) →
     NoDup (keys (setitem (index st) url txt))).
Proof.
  rewrite search_eq_spec. unfold search_spec, keys. split_and!.
  - intros url ([u txt] & -> & [_ ?]%list_elem_of_filter)%list_elem_of_fmap.
    apply list_elem_of_fmap. by exists (u, txt).
  - intros Hnd. eapply sublist_NoDup; [done|].
    apply sublist_keys, sublist_filter.
  - intros url txt. apply setitem_NoDup_keys.
Qed.

Lemma search_results_are_distinct_keys_witness :
  let st := {| index := [("page1", "This has the KEYWORD");
                         ("page2", "This has the keyword");
                         ("page3", "No match here")];
               visited := ∅; events := [] |} in
  NoDup (keys (index st)) ∧
  NoDup (search st "keyword") ∧
  NoDup (keys (setitem (index st) "page2" "changed")).
Proof.
  intros st.
  assert (NoDup (keys (index st))) as Hnd.
  { apply (bool_decide_unpack _). vm_compute. exact I. }
  split; [done|]. split.
  - exact (proj1 (proj2 (search_results_are_distinct_keys st "keyword")) Hnd).
  - exact (proj2 (proj2 (search_results_are_distinct_keys st "keyword"))
             "page2" "changed" Hnd).
Defined.

(** ** [crawl]: requests, and what it does to earlier entries *)

Section MoreCrawl.
Context `{Collaborators}.

(** X6: a call of [crawl] requests exactly the URLs it adds to the
    visited set, each once, in the order it adds them; it never requests
    a URL that was visited before the call. *)
Theorem crawl_requests_exactly_the_new_urls fuel url base_url st st' :
  crawl fuel url base_url st = Some (Ok tt, st') →
  ∃ evs,
    events st' = events st ++ evs ∧
    fetched evs = added evs ∧
    NoDup (fetched evs) ∧
    ∀ u, u ∈ fetched evs ↔ u ∈ visited st' ∧ u ∉ visited st.
Proof.
  intros [_ Hc]%crawl_sound.
  apply (proj1 crawl_extends_mutual) in Hc as (evs & He & Hf & Hok & Hg).
  apply trace_ok_added in Hok as [Hnd Hfresh].
  exists evs. rewrite Hg. split_and!; [done..|].
  intros u. change (visited st') with (fields st').1.
  rewrite Hf, replay_visited. simpl. split.
  - intros Hu. split; [set_solver|]. by apply Hfresh.
  - intros [[Hu%elem_of_list_to_set|?]%elem_of_union ?]; done.
Qed.

(** X7: a call of [crawl] removes nothing from the visited set and
    leaves alone the index entry, present or absent, of every URL that
    was visited before the call. *)
Theorem crawl_keeps_earlier_entries fuel url base_url st st' :
  crawl fuel url base_url st = Some (Ok tt, st') →
  visited st ⊆ visited st' ∧
  ∀ u, u ∈ visited st → getitem (index st') u = getitem (index st) u.
Proof.
  intros [_ Hc]%crawl_sound. split; [by eapply Crawl_mono|].
  by apply (proj1 crawl_getitem_mutual _ _ _ _ Hc).
Qed.

Lemma crawl_text_mutual :
  (∀ url base_url st st', Crawl url base_url st st' →
     ∀ u soup, u ∈ visited st' → u ∉ visited st → fetch_page u = Ok soup →
     getitem (index st') u = Some (get_text soup)) ∧
  (∀ url base_url links st r st', Links url base_url links st r st' →
     ∀ u soup, u ∈ visited st' → u ∉ visited st → fetch_page u = Ok soup →
     getitem (index st') u = Some (get_text soup)).
Proof.
  apply Crawl_mutind.
  - intros url base_url st Hin u soup Hu Hn. by fields.
  - intros url base_url st e Hn Hp u soup Hu Hnu Hs. fields.
    apply elem_of_union in Hu as [->%elem_of_singleton|?]; [congruence|done].
  - intros url base_url st soup r st' Hn Hp Hl IH u soup' Hu Hnu Hs. fields.
    destruct (decide (u = url)) as [->|Hne].
    + rewrite (proj2 crawl_getitem_mutual _ _ _ _ _ _ Hl) by (fields; set_solver).
      fields. rewrite getitem_setitem. congruence.
    + apply IH; [done| |done]. fields. set_solver.
  - done.
  - intros url base_url links st r st' _ IH. exact IH.
  - intros url base_url href links st r st' _ _ IH. exact IH.
  - done.
  - intros url base_url href links st target r st' _ _ _ _ IH u soup Hu Hn.
    apply IH; [done|by fields].
  - intros url base_url href links st target st1 r st' _ _ _ Hc IH1 Hl IH2
      u soup Hu Hn Hs.
    destruct (decide (u ∈ visited st1)) as [Hu1|Hu1]; [|by apply IH2].
    rewrite (proj2 crawl_getitem_mutual _ _ _ _ _ _ Hl) by done.
    apply IH1; [done|by fields|done].
Qed.

(** X8: the index holds the text of the page: if every visited URL whose
    fetch and parse succeed is indexed with the text of its page before a
    call, the same holds after it; on a fresh object it holds. *)
Theorem index_holds_page_text fuel url base_url st st' :
  (∀ u soup, u ∈ visited st → fetch_page u = Ok soup →
     getitem (index st) u = Some (get_text soup)) →
  crawl fuel url base_url st = Some (Ok tt, st') →
  ∀ u soup, u ∈ visited st' → fetch_page u = Ok soup →
    getitem (index st') u = Some (get_text soup).
Proof.
  intros Hinv [_ Hc]%crawl_sound u soup Hu Hs.
  destruct (decide (u ∈ visited st)) as [Hold|Hnew].
  - rewrite (proj1 crawl_getitem_mutual _ _ _ _ Hc) by done. auto.
  - by eapply (proj1 crawl_text_mutual).
Qed.

End MoreCrawl.

Lemma crawl_requests_exactly_the_new_urls_witness :
  let seed := "https://example.com" in
  let st' := ended (crawl (H:=chain_site) 4 seed None init) in
  crawl (H:=chain_site) 4 seed None init = Some (Ok tt, st') ∧
  ∃ evs,
    events st' = events init ++ evs ∧
    fetched evs = added evs ∧
    NoDup (fetched evs) ∧
    ∀ u, u ∈ fetched evs ↔ u ∈ visited st' ∧ u ∉ visited init.
Proof.
  intros seed st'. split; [vm_compute; reflexivity|].
  apply (crawl_requests_exactly_the_new_urls (H:=chain_site) 4 seed None init st').
  vm_compute; reflexivity.
Defined.

Lemma crawl_keeps_earlier_entries_witness :
  let st := ended (crawl (H:=chain_site) 4 "https://example.com" None init) in
  let st' := ended (crawl (H:=about_site) 3 "https://example.com/about" None st) in
  crawl (H:=about_site) 3 "https://example.com/about" None st = Some (Ok tt, st') ∧
  visited st ⊆ visited st' ∧
  ∀ u, u ∈ visited st → getitem (index st') u = getitem (index st) u.
Proof.
  intros st st'. split; [vm_compute; reflexivity|].
  apply (crawl_keeps_earlier_entries (H:=about_site) 3 "https://example.com/about"
           None st st').
  vm_compute; reflexivity.
Defined.

Lemma index_holds_page_text_witness :
  let seed := "https://example.com" in
  let st' := ended (crawl (H:=chain_site) 4 seed None init) in
  (∀ u soup, u ∈ visited init → fetch_page (H:=chain_site) u = Ok soup →
     getitem (index init) u = Some (get_text soup)) ∧
  crawl (H:=chain_site) 4 seed None init = Some (Ok tt, st') ∧
  ∀ u soup, u ∈ visited st' → fetch_page (H:=chain_site) u = Ok soup →
    getitem (index st') u = Some (get_text soup).
Proof.
  intros seed st'.
  assert (∀ u soup, u ∈ visited init → fetch_page (H:=chain_site) u = Ok soup →
            getitem (index init) u = Some (get_text soup)) as Hinv
    by (intros u soup Hu; by apply not_elem_of_empty in Hu).
  split; [done|]. split; [vm_compute; reflexivity|].
  apply (index_holds_page_text (H:=chain_site) 4 seed None init st');
    [done|vm_compute; reflexivity].
Defined.


(** ** [crawl]: the order of the index, and edge cases of the loop *)

Section Loop.
Context `{Collaborators}.

Lemma extends_index_within_visited st st' :
  extends st st' → index_within_visited (fields st) →
  index_within_visited (fields st').
Proof.
  intros (evs & _ & Hf & Hok & _) Hinv. rewrite Hf.
  by apply trace_ok_index_within_visited.
Qed.

Lemma crawl_appends_mutual :
  (∀ url base_url st st', Crawl url base_url st st' →
     index_within_visited (fields st) → ∃ new, index st' = index st ++ new) ∧
  (∀ url base_url links st r st', Links url base_url links st r st' →
     index_within_visited (fields st) → ∃ new, index st' = index st ++ new).
Proof.
  apply Crawl_mutind.
  - intros url base_url st _ _. exists []. fields. by rewrite app_nil_r.
  - intros url base_url st e _ _ _. exists []. fields. by rewrite app_nil_r.
  - intros url base_url st soup r st' Hn Hp Hl IH Hinv. fields.
    destruct IH as [new Hnew].
    { eapply extends_index_within_visited; [|done]. by apply extends_indexed. }
    exists ((url, get_text soup) :: new). rewrite Hnew. fields.
    rewrite setitem_fresh by (intros Hk; by apply Hn, Hinv).
    by rewrite <- app_assoc.
  - intros url base_url st _. exists []. by rewrite app_nil_r.
  - intros url base_url links st r st' _ IH. exact IH.
  - intros url base_url href links st r st' _ _ IH. exact IH.
  - intros url base_url href links st e _ _ _. exists []. by rewrite app_nil_r.
  - intros url base_url href links st target r st' _ _ _ _ IH Hinv.
    destruct (IH Hinv) as [new Hnew]. exists new. by rewrite Hnew.
  - intros url base_url href links st target st1 r st' _ _ _ Hc IH1 _ IH2 Hinv.
    destruct (IH1 Hinv) as [new1 Hnew1].
    destruct IH2 as [new2 Hnew2].
    { apply (proj1 crawl_extends_mutual) in Hc.
      eapply extends_index_within_visited; [exact Hc|done]. }
    exists (new1 ++ new2). rewrite Hnew2, Hnew1. fields. by rewrite <- app_assoc.
Qed.

(** X9: on an object whose index keys are visited URLs, a call of [crawl]
    only appends to the index, so the results of any search before the
    call are an initial segment of its results after the call. *)
Theorem crawl_appends_to_index fuel url base_url st st' :
  index_within_visited (fields st) →
  crawl fuel url base_url st = Some (Ok tt, st') →
  (∃ new, index st' = index st ++ new) ∧
  ∀ keyword, search st keyword `prefix_of` search st' keyword.
Proof.
  intros Hinv [_ Hc]%crawl_sound.
  destruct (proj1 crawl_appends_mutual _ _ _ _ Hc Hinv) as [new Hnew].
  split; [by exists new|]. intros keyword.
  rewrite !search_eq_spec. unfold search_spec. rewrite Hnew, filter_app, fmap_app.
  by eexists.
Qed.

Lemma for_each_ext {A} (l : list A) (f g : A → M unit) st :
  (∀ x st, f x st = g x st) → for_each l f st = for_each l g st.
Proof.
  intros Hfg. revert st. induction l as [|x l IH]; intros st; [done|].
  rewrite !for_each_cons, Hfg. destruct (g x st) as [[[[]|e] st1]|]; auto.
Qed.

(** X10: anchors without an href and anchors whose href is empty count
    for nothing: the loop over the anchors of a page does what the loop
    over the anchors with a non-empty href does. *)
Theorem loop_skips_anchors_without_href self_crawl url base_url links st :
  for_each links (crawl_link self_crawl url base_url) st =
  for_each (filter (λ link, has_href link = true) links)
    (crawl_link self_crawl url base_url) st.
Proof.
  revert st. induction links as [|link links IH]; intros st; [done|].
  rewrite filter_cons. destruct (has_href link) eqn:Hh.
  - rewrite decide_True by done. rewrite !for_each_cons.
    destruct (crawl_link _ _ _ link st) as [[[[]|e] st1]|]; auto.
  - rewrite decide_False by (by intros ?). rewrite for_each_cons.
    rewrite crawl_link_unfold. destruct link as [href|]; [|apply IH].
    simpl in Hh. rewrite Hh. apply IH.
Qed.

(** X11: an empty [base_url] is no [base_url]: [crawl(url, "")] does what
    [crawl(url)] does, because [base_url or url] takes the empty string
    for absent. *)
Theorem crawl_empty_base_is_no_base fuel url st :
  crawl fuel url (Some "") st = crawl fuel url None st.
Proof.
  destruct fuel as [|fuel]; [done|]. rewrite !crawl_unfold.
  case_decide; [done|]. destruct (fetch_page url) as [soup|e]; [|done].
  erewrite for_each_ext; [done|]. intros link st0.
  by rewrite !crawl_link_unfold.
Qed.

Lemma Links_raise_inv url base_url pre href post st e r st' :
  Links url base_url (pre ++ Some href :: post) st r st' →
  Forall (resolves (or_else base_url url)) pre →
  truthy href = true → urljoin (or_else base_url url) href = Raise e →
  r = Raise e.
Proof.
  intros Hl Hpre Hh Hj. revert st Hl.
  induction Hpre as [|link pre Hr Hpre IH]; intros st Hl; simpl in Hl.
  - inversion Hl; subst; congruence.
  - inversion Hl; subst; eauto.
    destruct (Hr ltac:(done)) as [target Ht]. congruence.
Qed.

(** X12: when the resolution of an href raises while the earlier hrefs
    of the page resolve, a call that returns leaves the page in the index
    with its text, and the last thing it did is log the error. *)
Theorem resolution_failure_keeps_page_indexed
    fuel url base_url st st' soup pre href post e :
  url ∉ visited st → fetch_page url = Ok soup →
  find_all_a soup = pre ++ Some href :: post →
  Forall (resolves (or_else base_url url)) pre →
  truthy href = true → urljoin (or_else base_url url) href = Raise e →
  crawl fuel url base_url st = Some (Ok tt, st') →
  getitem (index st') url = Some (get_text soup) ∧
  last (events st') = Some (Log ERROR (msg_error url e)).
Proof.
  intros Hn Hp Hlinks Hpre Hh Hj [_ Hc]%crawl_sound.
  split; [by eapply Crawl_indexed|].
  inversion Hc as [| |?? ? soup' r st1 _ Hp' Hl]; subst; [done|congruence|].
  assert (soup' = soup) as -> by congruence. rewrite Hlinks in Hl.
  rewrite (Links_raise_inv _ _ _ _ _ _ _ _ _ Hl Hpre Hh Hj).
  simpl. apply last_snoc.
Qed.

End Loop.

Lemma crawl_appends_to_index_witness :
  let st := ended (crawl (H:=chain_site) 4 "https://example.com" None init) in
  let st' := ended (crawl (H:=about_site) 3 "https://example.com/about" None st) in
  index_within_visited (fields st) ∧
  crawl (H:=about_site) 3 "https://example.com/about" None st = Some (Ok tt, st') ∧
  (∃ new, index st' = index st ++ new) ∧
  ∀ keyword, search st keyword `prefix_of` search st' keyword.
Proof.
  intros st st'.
  assert (index_within_visited (fields st)) as Hinv.
  { intros u Hu. apply (bool_decide_unpack _).
    repeat (apply elem_of_cons in Hu as [->|Hu]; [vm_compute; exact I|]).
    by apply elem_of_nil in Hu. }
  split; [done|]. split; [vm_compute; reflexivity|].
  apply (crawl_appends_to_index (H:=about_site) 3 "https://example.com/about"
           None st st'); [done|vm_compute; reflexivity].
Defined.

Lemma resolution_failure_keeps_page_indexed_witness :
  let seed := "https://example.com" in
  let st' := ended (crawl (H:=bad_href_site) 2 seed None init) in
  crawl (H:=bad_href_site) 2 seed None init = Some (Ok tt, st') ∧
  getitem (index st') seed = Some "Welcome!" ∧
  last (events st') =
    Some (Log ERROR (msg_error seed (Exception "Invalid IPv6 URL"))).
Proof.
  intros seed st'. split; [vm_compute; reflexivity|].
  apply (resolution_failure_keeps_page_indexed (H:=bad_href_site) 2 seed None init
           st' {| get_text := "Welcome!";
                  find_all_a := [Some "//["; Some "/about"] |}
           [] "//[" [Some "/about"] (Exception "Invalid IPv6 URL")).
  - set_solver.
  - reflexivity.
  - reflexivity.
  - constructor.
  - reflexivity.
  - reflexivity.
  - vm_compute; reflexivity.
Defined.

(** ** [main] *)

Section Main.
Context `{Collaborators}.

Lemma replay_NoDup_keys σ evs :
  NoDup (keys σ.2) → NoDup (keys (replay σ evs).2).
Proof.
  revert σ. induction evs as [|e evs IH]; intros σ Hnd; [done|].
  apply IH. destruct e; simpl; [done..|]. by apply setitem_NoDup_keys.
Qed.

Lemma getitem_elem_of (d : dict) k v :
  NoDup (keys d) → (k, v) ∈ d ↔ getitem d k = Some v.
Proof.
  unfold keys. induction d as [|[k0 v0] d IH]; simpl.
  - intros _. split; [by intros ?%elem_of_nil|done].
  - intros [Hk Hnd]%NoDup_cons. rewrite elem_of_cons, IH by done.
    case_decide as Heq.
    + subst. split; [|by intros [= ->]; left].
      intros [[= ->]|Hget]; [done|].
      destruct Hk. apply elem_of_keys_getitem. by rewrite Hget.
    + split; [|by right]. intros [[= -> ->]|?]; done.
Qed.

(** X13: what [main] prints. It never ends with an exception. The
    results it prints are, each once, the URLs reached from
    [https://example.com] along followed links whose page was fetched and
    parsed and whose lowercased text contains [test]; each of them starts
    with [https://example.com]. *)
Theorem main_prints_the_matching_pages_of_the_site fuel r :
  main fuel = Some r →
  ∃ results,
    r = Ok (print_results results) ∧
    NoDup results ∧
    (∀ u, u ∈ results → startswith u "https://example.com" = true) ∧
    ∀ u, u ∈ results ↔
         rtc (follows "https://example.com") "https://example.com" u ∧
         ∃ soup a b, fetch_page u = Ok soup ∧
                     lower (get_text soup) = a +:+ "test" +:+ b.
Proof.
  unfold main.
  destruct (crawl fuel _ None init) as [[[[]|e] st]|] eqn:Hrun; [| |done].
  2:{ by apply crawl_sound in Hrun as [[=] _]. }
  intros [= <-]. exists (search st "test"). split; [done|].
  pose proof (crawl_visited_reach _ "https://example.com" _ eq_refl Hrun) as Hreach.
  pose proof Hrun as [_ Hc]%crawl_sound.
  assert (NoDup (keys (index st))) as Hnd.
  { apply (proj1 crawl_extends_mutual) in Hc as (evs & _ & Hf & _).
    change (index st) with (fields st).2. rewrite Hf.
    apply replay_NoDup_keys. constructor. }
  assert (∀ u soup, u ∈ visited st → fetch_page u = Ok soup →
            getitem (index st) u = Some (get_text soup)) as Htext.
  { intros u soup Hu Hs.
    eapply (proj1 crawl_text_mutual _ _ _ _ Hc); [done|set_solver|done]. }
  assert (∀ u, u ∈ keys (index st) ↔ u ∈ visited st ∧ parsed u) as Hkeys.
  { intros u. rewrite (proj1 crawl_keys_mutual _ _ _ _ Hc). simpl. split.
    - intros [?%elem_of_nil|(? & _ & ?)]; done.
    - intros [? ?]. right. split_and!; [done|set_solver|done]. }
  split_and!.
  - rewrite search_eq_spec. eapply sublist_NoDup; [exact Hnd|].
    apply sublist_keys, sublist_filter.
  - intros u (txt & _ & _ & Hentry & _)%elem_of_search.
    assert (u ∈ keys (index st)) as [Hu _]%Hkeys.
    { apply list_elem_of_fmap. by exists (u, txt). }
    destruct (Crawl_scope _ _ _ _ _ Hc Hu) as [?%not_elem_of_empty|[->|?]];
      [done|apply startswith_refl|done].
  - intros u. rewrite elem_of_search. change (lower "test") with "test". split.
    + intros (txt & a & b & Hentry & Hab).
      apply getitem_elem_of in Hentry as Hget; [|done].
      assert (u ∈ keys (index st)) as [Hu [soup Hs]]%Hkeys.
      { apply elem_of_keys_getitem. by rewrite Hget. }
      split; [by apply Hreach|]. exists soup, a, b. split; [done|].
      rewrite (Htext _ _ Hu Hs) in Hget. congruence.
    + intros (Hu%Hreach & soup & a & b & Hs & Hab).
      exists (get_text soup), a, b. split; [|done].
      apply getitem_elem_of; auto.
Qed.

(** X14: when the start URL cannot be fetched or parsed, [main] prints
    [No results found.] and nothing else. *)
Theorem main_without_start_page fuel e :
  fetch_page "https://example.com" = Raise e →
  main (S fuel) = Some (Ok ["No results found."]).
Proof.
  intros Hp. unfold main.
  rewrite crawl_unfold, decide_False, Hp by (simpl; set_solver). done.
Qed.

(** X15: on a site where the calls from the start URL touch finitely
    many URLs, [main] prints its lines given fuel above their number, and
    more fuel changes nothing. *)
Theorem main_returns (U : gset string) fuel :
  (∀ c, rtc calls ("https://example.com", None) c → c.1 ∈ U) →
  size U < fuel →
  ∃ results,
    ∀ fuel', (fuel ≤ fuel')%nat → main fuel' = Some (Ok (print_results results)).
Proof.
  intros HU Hsize.
  destruct (crawl_terminates U fuel "https://example.com" None init HU)
    as [st' Hrun].
  { eapply Nat.le_lt_trans; [|exact Hsize].
    apply subseteq_size. set_solver. }
  exists (search st' "test"). intros fuel' Hle. unfold main.
  by rewrite (crawl_fuel_mono _ _ _ _ _ _ _ Hrun Hle).
Qed.

End Main.

Lemma main_prints_the_matching_pages_of_the_site_witness :
  let lines := ["Search results:"; "- https://example.com/tests"] in
  main (H:=testing_site) 3 = Some (Ok lines) ∧
  ∃ results,
    Ok lines = Ok (print_results results) ∧
    NoDup results ∧
    (∀ u, u ∈ results → startswith u "https://example.com" = true) ∧
    ∀ u, u ∈ results ↔
         rtc (follows (H:=testing_site) "https://example.com")
           "https://example.com" u ∧
         ∃ soup a b, fetch_page (H:=testing_site) u = Ok soup ∧
                     lower (get_text soup) = a +:+ "test" +:+ b.
Proof.
  intros lines.
  assert (main (H:=testing_site) 3 = Some (Ok lines)) as Hmain
    by (vm_compute; reflexivity).
  split; [done|].
  exact (main_prints_the_matching_pages_of_the_site (H:=testing_site) 3 _ Hmain).
Defined.

Lemma main_without_start_page_witness :
  fetch_page (H:=offline_site) "https://example.com" =
    Raise (RequestException "Network Error") ∧
  main (H:=offline_site) 1 = Some (Ok ["No results found."]).
Proof.
  split; [reflexivity|].
  exact (main_without_start_page (H:=offline_site) 0
           (RequestException "Network Error") eq_refl).
Defined.

Lemma main_returns_witness :
  let U : gset string :=
    {["https://example.com"; "https://example.com/b"; "https://example.com/c"]} in
  (∀ c, rtc (calls (H:=chain_site)) ("https://example.com", None) c → c.1 ∈ U) ∧
  size U < 4 ∧
  ∃ results,
    ∀ fuel', (4 ≤ fuel')%nat →
      main (H:=chain_site) fuel' = Some (Ok (print_results results)).
Proof.
  intros U. split; [apply chain_site_calls|]. split; [vm_compute; lia|].
  apply (main_returns (H:=chain_site) U 4).
  - apply chain_site_calls.
  - vm_compute; lia.
Defined.
